(** * Pegasus qubit coordinates (pegasus_qac/pqubit.py)

    A shallow embedding of the [Pqubit] descriptor class and of the module
    level helpers [vert2horz], [horz2vert] and [internal_coupling], with
    Python integers as [Z], floor division [//] as [Z.div] and [%] as
    [Z.modulo] (both agree with Python for the positive divisors used
    here), and raised exceptions as an explicit result type. *)

From Stdlib Require Import ZArith List String Ascii Bool Lia DecimalString.
Import ListNotations.
Open Scope Z_scope.

(** ** The fragment of the Python runtime the module relies on *)

Inductive exn : Type :=
| ValueError (msg : string)
| RuntimeError (msg : string)
| IndexError
| AttributeError
| AssertionError.

Inductive result (A : Type) : Type :=
| Ok (a : A)
| Raise (e : exn).

Arguments Ok {A} a.
Arguments Raise {A} e.

Definition bind {A B : Type} (r : result A) (f : A -> result B) : result B :=
  match r with
  | Ok a => f a
  | Raise e => Raise e
  end.

Notation "x <- r ;; k" := (bind r (fun x => k))
  (at level 61, r at next level, right associativity).
Notation "' pat <- r ;; k" := (bind r (fun x => match x with pat => k end))
  (at level 61, pat pattern, r at next level, right associativity).

(** [str(n)] of a Python integer, as interpolated by an f-string. *)
Definition str_of_int (n : Z) : string := NilZero.string_of_int (Z.to_int n).

(** [l[i]] on a Python list: a negative index counts from the end, and an
    index outside [-len(l), len(l)) raises [IndexError]. *)
Definition getitem (l : list Z) (i : Z) : result Z :=
  let n := Z.of_nat (List.length l) in
  let i' := if i <? 0 then i + n else i in
  if (0 <=? i') && (i' <? n) then
    match nth_error l (Z.to_nat i') with
    | Some v => Ok v
    | None => Raise IndexError
    end
  else Raise IndexError.

(** Keyword arguments forwarded to the constructor: only [assert_valid] is
    meaningful, [None] stands for an empty [**kwargs]. *)
Definition kwargs : Type := option bool.

Definition assert_valid_of (kw : kwargs) : bool :=
  match kw with
  | Some b => b
  | None => true
  end.

(** ** Module constants *)

Definition Pegasus0Shift : list Z := [2; 2; 10; 10; 6; 6; 6; 6; 2; 2; 10; 10].

(** ** Module level functions *)

Definition vert2horz (w k : Z) : Z * Z * Z :=
  let xv := 3 * w + k / 4 in
  let yv := 2 + (2 * (k / 4)) mod 3 in
  let z2 := (xv - 1) / 3 in
  let w2 := yv / 3 in
  let k02 := (yv mod 3) * 4 in
  (w2, k02, z2).

Definition horz2vert (w k : Z) : Z * Z * Z :=
  let xh := 1 + (2 * (k / 4 + 2)) mod 3 in
  let yh := 3 * w + k / 4 in
  let z2 := (yh - 2) / 3 in
  let w2 := xh / 3 in
  let k02 := (xh mod 3) * 4 in
  (w2, k02, z2).

Definition internal_coupling (u w k z j : Z) : result (Z * Z * Z) :=
  if u =? 0 then
    s1 <- getitem Pegasus0Shift (k / 2) ;;
    let d1 := if j <? s1 then 1 else 0 in
    s2 <- getitem Pegasus0Shift (6 + j / 2) ;;
    let d2 := if k <? s2 then 1 else 0 in
    Ok (z + d1, j, w - d2)
  else
    s1 <- getitem Pegasus0Shift (j / 2) ;;
    let d1 := if k <? s1 then 1 else 0 in
    s2 <- getitem Pegasus0Shift (6 + k / 2) ;;
    let d2 := if j <? s2 then 1 else 0 in
    Ok (z + d2, j, w - d1).

(** ** The class [Pqubit] *)

Module Pqubit.

(** The instance attributes.  [_check_str] is only assigned by the
    non-strict branch of the constructor: [None] is the attribute left
    unset, [Some None] the attribute holding Python's [None]. *)
Record t : Type := mk {
  _valid_coord : bool;
  _check_str : option (option string);
  m : Z;
  u : Z;
  w : Z;
  k : Z;
  z : Z
}.

Definition _check_if_not_valid (m u w k z : Z) : option string :=
  if negb (m >=? 1) then
    Some ("Invalid m: " ++ str_of_int m
          ++ ". (Must be an integer greater than 0)")%string
  else if negb ((u =? 0) || (u =? 1)) then
    Some ("Invalid u: " ++ str_of_int u ++ ". (Valid range is 0 or 1)")%string
  else if negb ((0 <=? w) && (w <=? m - 1)) then
    Some ("Invalid w: " ++ str_of_int w ++ ". (Valid range is [0, "
          ++ str_of_int (m - 1) ++ "] with m=" ++ str_of_int m ++ ")")%string
  else if negb ((0 <=? k) && (k <=? 11)) then
    Some ("Invalid k: " ++ str_of_int k ++ ". (Valid range is [0, 11])")%string
  else if negb ((0 <=? z) && (z <=? m - 2)) then
    Some ("Invalid z: " ++ str_of_int z ++ ". (Valid range is [0, "
          ++ str_of_int (m - 2) ++ "] with m=" ++ str_of_int m ++ ")")%string
  else None.

Definition __init__ (m u w k z : Z) (assert_valid : bool) : result t :=
  let check_str := _check_if_not_valid m u w k z in
  if assert_valid then
    match check_str with
    | Some s => Raise (ValueError s)
    | None => Ok (mk true None m u w k z)
    end
  else
    match check_str with
    | Some s => Ok (mk false (Some (Some s)) m u w k z)
    | None => Ok (mk true (Some None) m u w k z)
    end.

(** The class called as a function, with forwarded keyword arguments. *)
Definition new (m u w k z : Z) (kw : kwargs) : result t :=
  __init__ m u w k z (assert_valid_of kw).

Definition __eq__ (self other : t) : bool :=
  (m self =? m other) && (u self =? u other) && (w self =? w other)
  && (k self =? k other) && (z self =? z other).

Definition none_if_invalid (self : t) : option t :=
  if _valid_coord self then Some self else None.

Definition is_vert_coord (self : t) : bool := u self =? 0.

Definition is_horz_coord (self : t) : bool := u self =? 1.

(** The interpolation [{self._check_str}] of the error message of
    [to_linear]: reading an attribute that was never assigned raises. *)
Definition format_check_str (self : t) : result string :=
  match _check_str self with
  | Some (Some s) => Ok s
  | Some None => Ok "None"%string
  | None => Raise AttributeError
  end.

Definition to_linear (self : t) : result Z :=
  if _valid_coord self then
    Ok (z self + (m self - 1) * (k self + 12 * (w self + m self * u self)))
  else
    s <- format_check_str self ;;
    Raise (RuntimeError
             ("Attempted to convert from invalid coordinates:"
              ++ String "010"%char "'" ++ s ++ "'")%string).

Definition conn_external (self : t) (dz : Z) (kw : kwargs) : result t :=
  new (m self) (u self) (w self) (k self) (z self + dz) kw.

Definition conn_odd (self : t) (kw : kwargs) : result t :=
  let k2 := if (k self) mod 2 =? 0 then k self + 1 else k self - 1 in
  new (m self) (u self) (w self) k2 (z self) kw.

Definition conn_k44 (self : t) (dk : Z) (kw : kwargs) : result t :=
  let '(w2, k02, z2) :=
    if is_vert_coord self then vert2horz (w self) (k self)
    else horz2vert (w self) (k self) in
  new (m self) (1 - u self) w2 (k02 + dk) z2 kw.

Definition conn_internal (self : t) (dk : Z) : result t :=
  let '(_, k0_cluster, _) :=
    if is_vert_coord self then vert2horz (w self) (k self)
    else horz2vert (w self) (k self) in
  let j := (k0_cluster + dk) mod 12 in
  '(w2, k2, z2) <- internal_coupling (u self) (w self) (k self) (z self) j ;;
  new (m self) (1 - u self) w2 k2 z2 None.

Definition conn_internal_abs (self : t) (j : Z) (kw : kwargs) : result t :=
  '(w2, k2, z2) <- internal_coupling (u self) (w self) (k self) (z self) j ;;
  new (m self) (1 - u self) w2 k2 z2 kw.

Definition __repr__ (self : t) : string :=
  let s := if negb (_valid_coord self) then "!!!"%string else EmptyString in
  if is_vert_coord self then
    (s ++ ("Vert(M=" ++ str_of_int (m self) ++ ")[u=0, w: "
           ++ str_of_int (w self) ++ ", k: " ++ str_of_int (k self)
           ++ ", z: " ++ str_of_int (z self) ++ "]"))%string
  else
    (s ++ ("Horz(M=" ++ str_of_int (m self) ++ ")[u=1, w: "
           ++ str_of_int (w self) ++ ", k: " ++ str_of_int (k self)
           ++ ", z: " ++ str_of_int (z self) ++ "]"))%string.

End Pqubit.

(** ** The module's self test *)

(** The chain of couplers walked by [test_pqubit], up to [q9]. *)
Definition test_pqubit_walk : result (Pqubit.t * Pqubit.t) :=
  q1 <- Pqubit.new 3 0 0 2 0 None ;;
  q2 <- Pqubit.conn_external q1 1 None ;;
  q3 <- Pqubit.conn_internal q2 (-4) ;;
  q4 <- Pqubit.conn_internal q3 3 ;;
  q5 <- Pqubit.conn_odd q4 None ;;
  q6 <- Pqubit.conn_internal q5 (-2) ;;
  q7 <- Pqubit.conn_internal q6 0 ;;
  q8 <- Pqubit.conn_internal q7 (-5) ;;
  q9 <- Pqubit.conn_internal q8 (-2) ;;
  Ok (q1, q9).

Definition test_pqubit : result unit :=
  '(q1, q9) <- test_pqubit_walk ;;
  if Pqubit.__eq__ q1 q9 then Ok tt else Raise AssertionError.

(** ** Vocabulary of the specification *)

(** An address is an object the constructor returns for its own fields;
    it is valid when its flag says so. *)
Definition constructed (q : Pqubit.t) : Prop :=
  exists assert_valid,
    Pqubit.__init__ (Pqubit.m q) (Pqubit.u q) (Pqubit.w q) (Pqubit.k q)
      (Pqubit.z q) assert_valid = Ok q.

Definition valid_address (q : Pqubit.t) : Prop :=
  constructed q /\ Pqubit._valid_coord q = true.

Definition invalid_address (q : Pqubit.t) : Prop :=
  constructed q /\ Pqubit._valid_coord q = false.

Definition fields (q : Pqubit.t) : Z * Z * Z * Z * Z :=
  (Pqubit.m q, Pqubit.u q, Pqubit.w q, Pqubit.k q, Pqubit.z q).

(** The documented ranges of the five coordinates. *)
Definition in_range (m u w k z : Z) : Prop :=
  1 <= m /\ (u = 0 \/ u = 1) /\ 0 <= w <= m - 1 /\ 0 <= k <= 11
  /\ 0 <= z <= m - 2.

(** The five validation rules, in the order the specification lists them. *)
Inductive field : Type :=
| Size
| Orientation
| PerpOffset
| Slot
| ParallelOffset.

Definition validation_order : list field :=
  [Size; Orientation; PerpOffset; Slot; ParallelOffset].

Definition rule_holds (m u w k z : Z) (f : field) : bool :=
  match f with
  | Size => 1 <=? m
  | Orientation => (u =? 0) || (u =? 1)
  | PerpOffset => (0 <=? w) && (w <=? m - 1)
  | Slot => (0 <=? k) && (k <=? 11)
  | ParallelOffset => (0 <=? z) && (z <=? m - 2)
  end.

Definition violation_message (m u w k z : Z) (f : field) : string :=
  match f with
  | Size =>
      "Invalid m: " ++ str_of_int m ++ ". (Must be an integer greater than 0)"
  | Orientation =>
      "Invalid u: " ++ str_of_int u ++ ". (Valid range is 0 or 1)"
  | PerpOffset =>
      "Invalid w: " ++ str_of_int w ++ ". (Valid range is [0, "
      ++ str_of_int (m - 1) ++ "] with m=" ++ str_of_int m ++ ")"
  | Slot =>
      "Invalid k: " ++ str_of_int k ++ ". (Valid range is [0, 11])"
  | ParallelOffset =>
      "Invalid z: " ++ str_of_int z ++ ". (Valid range is [0, "
      ++ str_of_int (m - 2) ++ "] with m=" ++ str_of_int m ++ ")"
  end%string.

Definition first_violation (m u w k z : Z) : option field :=
  find (fun f => negb (rule_holds m u w k z f)) validation_order.

(** The text [to_linear] raises for an address whose stored violation is [s]. *)
Definition conversion_error (s : string) : exn :=
  RuntimeError
    ("Attempted to convert from invalid coordinates:"
     ++ String "010"%char "'" ++ s ++ "'")%string.

(** The shift table read at an index inside [0, 11]. *)
Definition shift_table (i : Z) : Z := nth (Z.to_nat i) Pegasus0Shift 0.

(** The coupling of section 4.4 as the specification words it. *)
Definition spec_internal_coupling (u w k z j : Z) : Z * Z * Z :=
  if u =? 0 then
    let d1 := if j <? shift_table (k / 2) then 1 else 0 in
    let d2 := if k <? shift_table (6 + j / 2) then 1 else 0 in
    (w - d2, j, z + d1)
  else
    let d1 := if k <? shift_table (j / 2) then 1 else 0 in
    let d2 := if j <? shift_table (6 + k / 2) then 1 else 0 in
    (w - d1, j, z + d2).

(** The two round trips of the tile geometry: the pair [(w2, k0)] of one
    transform is handed to the other. *)
Definition vert_horz_vert (w k : Z) : Z * Z * Z :=
  let '(w2, k02, _) := vert2horz w k in horz2vert w2 k02.

Definition horz_vert_horz (w k : Z) : Z * Z * Z :=
  let '(w2, k02, _) := horz2vert w k in vert2horz w2 k02.

(** The outcome of building an address with fields [(m, u, w, k, z)]:
    validated against the ranges, raised in strict mode, flagged otherwise. *)
Definition validated (strict : bool) (m u w k z : Z) (r : result Pqubit.t)
  : Prop :=
  match Pqubit._check_if_not_valid m u w k z with
  | None =>
      exists q, r = Ok q /\ fields q = (m, u, w, k, z)
                /\ Pqubit._valid_coord q = true
  | Some s =>
      if strict then r = Raise (ValueError s)
      else exists q, r = Ok q /\ fields q = (m, u, w, k, z)
                     /\ Pqubit._valid_coord q = false
                     /\ Pqubit._check_str q = Some (Some s)
  end.

(** The slot paired with [k] by the odd coupler. *)
Definition odd_slot (k : Z) : Z := if Z.even k then k + 1 else k - 1.

(** The orientation bit of the linear index: 0 for Vertical, 1 for
    Horizontal. *)
Definition orientation_bit (q : Pqubit.t) : Z :=
  if Pqubit.is_vert_coord q then 0 else 1.

(** Decoding of a linear index, digit by digit, for the bases
    [(size-1, 12, size, 2)]. *)
Definition of_linear (M n : Z) : Pqubit.t :=
  let z := n mod (M - 1) in
  let a := n / (M - 1) in
  let k := a mod 12 in
  let b := a / 12 in
  Pqubit.mk true None M (b / M) (b mod M) k z.

(** The slot of the aligned cluster, as [conn_k44] and [conn_internal]
    read it off the tile geometry. *)
Definition cluster_slot (q : Pqubit.t) : Z :=
  let '(_, k0, _) :=
    if Pqubit.is_vert_coord q then vert2horz (Pqubit.w q) (Pqubit.k q)
    else horz2vert (Pqubit.w q) (Pqubit.k q) in
  k0.

(** * Properties *)

(** Projections of an explicit record, without touching the arithmetic. *)
Ltac attrs :=
  cbn [Pqubit.m Pqubit.u Pqubit.w Pqubit.k Pqubit.z Pqubit._valid_coord
       Pqubit._check_str] in *.

Lemma Ok_inj {A : Type} (a b : A) : Ok a = Ok b -> a = b.
Proof. intros E. congruence. Qed.

(** ** The validator *)

Lemma check_None_iff (m u w k z : Z) :
  Pqubit._check_if_not_valid m u w k z = None <-> in_range m u w k z.
Proof.
  unfold Pqubit._check_if_not_valid, in_range.
  rewrite Z.geb_leb.
  destruct (Z.leb_spec 1 m); simpl; [| split; [discriminate | lia]].
  destruct (Z.eqb_spec u 0); simpl.
  2: destruct (Z.eqb_spec u 1); simpl; [| split; [discriminate | lia]].
  all: destruct (Z.leb_spec 0 w); simpl; [| split; [discriminate | lia]].
  all: destruct (Z.leb_spec w (m - 1)); simpl; [| split; [discriminate | lia]].
  all: destruct (Z.leb_spec 0 k); simpl; [| split; [discriminate | lia]].
  all: destruct (Z.leb_spec k 11); simpl; [| split; [discriminate | lia]].
  all: destruct (Z.leb_spec 0 z); simpl; [| split; [discriminate | lia]].
  all: destruct (Z.leb_spec z (m - 2)); simpl; [| split; [discriminate | lia]].
  all: split; [intros _; lia | reflexivity].
Qed.

Lemma check_first_violation (m u w k z : Z) :
  Pqubit._check_if_not_valid m u w k z
  = option_map (violation_message m u w k z) (first_violation m u w k z).
Proof.
  unfold Pqubit._check_if_not_valid, first_violation, validation_order.
  cbn [find rule_holds]. rewrite Z.geb_leb.
  destruct (1 <=? m); cbn [negb]; [| reflexivity].
  destruct ((u =? 0) || (u =? 1)); cbn [negb]; [| reflexivity].
  destruct ((0 <=? w) && (w <=? m - 1)); cbn [negb]; [| reflexivity].
  destruct ((0 <=? k) && (k <=? 11)); cbn [negb]; [| reflexivity].
  destruct ((0 <=? z) && (z <=? m - 2)); cbn [negb]; reflexivity.
Qed.

Lemma valid_address_inv (q : Pqubit.t) :
  valid_address q ->
  in_range (Pqubit.m q) (Pqubit.u q) (Pqubit.w q) (Pqubit.k q) (Pqubit.z q).
Proof.
  intros [[av Hc] Hv]. apply check_None_iff.
  unfold Pqubit.__init__ in Hc.
  destruct (Pqubit._check_if_not_valid _ _ _ _ _) as [s |]; [| reflexivity].
  destruct av; [discriminate |].
  injection Hc as Hc. rewrite <- Hc in Hv. discriminate.
Qed.

Lemma valid_address_intro (m u w k z : Z) (cs : option (option string)) :
  in_range m u w k z -> cs = None \/ cs = Some None ->
  valid_address (Pqubit.mk true cs m u w k z).
Proof.
  intros Hr Hcs. apply check_None_iff in Hr.
  split; [| reflexivity].
  destruct Hcs as [-> | ->]; [exists true | exists false];
    unfold Pqubit.__init__; cbn; rewrite Hr; reflexivity.
Qed.

Lemma new_validated (m u w k z : Z) (kw : kwargs) :
  validated (assert_valid_of kw) m u w k z (Pqubit.new m u w k z kw).
Proof.
  unfold validated, Pqubit.new, Pqubit.__init__.
  destruct (Pqubit._check_if_not_valid m u w k z) as [s |];
    destruct (assert_valid_of kw); eauto 10.
Qed.

(** ** The linear index *)

Lemma digit_unique (b a a' x x' : Z) :
  0 <= a < b -> 0 <= a' < b -> a + b * x = a' + b * x' -> a = a' /\ x = x'.
Proof.
  intros Ha Ha' E.
  assert (x = x') by nia.
  subst x'. lia.
Qed.

Lemma valid_orientation_bit (q : Pqubit.t) :
  valid_address q -> Pqubit.u q = orientation_bit q.
Proof.
  intros Hq. destruct (valid_address_inv q Hq) as (_ & Hu & _).
  unfold orientation_bit, Pqubit.is_vert_coord.
  destruct Hu as [-> | ->]; reflexivity.
Qed.

Lemma to_linear_valid (q : Pqubit.t) :
  valid_address q ->
  Pqubit.to_linear q
  = Ok (Pqubit.z q
        + (Pqubit.m q - 1)
          * (Pqubit.k q + 12 * (Pqubit.w q + Pqubit.m q * orientation_bit q))).
Proof.
  intros Hq. rewrite <- (valid_orientation_bit q Hq).
  destruct Hq as [_ Hv]. unfold Pqubit.to_linear. rewrite Hv. reflexivity.
Qed.

Lemma to_linear_bounds (q : Pqubit.t) (n : Z) :
  valid_address q -> Pqubit.to_linear q = Ok n ->
  0 <= n < 24 * Pqubit.m q * (Pqubit.m q - 1).
Proof.
  intros Hq E. rewrite (to_linear_valid q Hq) in E.
  apply Ok_inj in E. subst n.
  rewrite <- (valid_orientation_bit q Hq).
  destruct (valid_address_inv q Hq) as (Hm & Hu & Hw & Hk & Hz).
  destruct q as [v cs m u w k z]; attrs.
  assert (0 <= w + m * u <= 2 * m - 1) by (destruct Hu; subst u; lia).
  assert (HA : 0 <= k + 12 * (w + m * u) <= 24 * m - 1) by lia.
  assert (0 <= (m - 1) * (k + 12 * (w + m * u)))
    by (apply Z.mul_nonneg_nonneg; lia).
  assert ((m - 1) * (k + 12 * (w + m * u)) <= (m - 1) * (24 * m - 1))
    by (apply Z.mul_le_mono_nonneg_l; lia).
  lia.
Qed.

Lemma to_linear_injective (q1 q2 : Pqubit.t) :
  valid_address q1 -> valid_address q2 -> Pqubit.m q1 = Pqubit.m q2 ->
  Pqubit.to_linear q1 = Pqubit.to_linear q2 -> Pqubit.__eq__ q1 q2 = true.
Proof.
  intros H1 H2 Hm E.
  rewrite (to_linear_valid q1 H1), (to_linear_valid q2 H2) in E.
  rewrite <- (valid_orientation_bit q1 H1), <- (valid_orientation_bit q2 H2) in E.
  apply Ok_inj in E.
  destruct (valid_address_inv q1 H1) as (Hm1 & Hu1 & Hw1 & Hk1 & Hz1).
  destruct (valid_address_inv q2 H2) as (Hm2 & Hu2 & Hw2 & Hk2 & Hz2).
  unfold Pqubit.__eq__.
  destruct q1 as [v1 c1 m1 u1 w1 k1 z1], q2 as [v2 c2 m2 u2 w2 k2 z2].
  attrs. subst m2.
  apply digit_unique in E; [| lia | lia]. destruct E as [-> E].
  apply digit_unique in E; [| lia | lia]. destruct E as [-> E].
  apply digit_unique in E; [| lia | lia]. destruct E as [-> ->].
  rewrite !Z.eqb_refl. reflexivity.
Qed.

Lemma of_linear_valid (M n : Z) :
  0 <= n < 24 * M * (M - 1) -> 1 <= M ->
  valid_address (of_linear M n) /\ Pqubit.m (of_linear M n) = M
  /\ Pqubit.to_linear (of_linear M n) = Ok n.
Proof.
  intros Hn HM.
  assert (HM1 : 0 < M - 1) by nia.
  pose proof (Z.div_mod n (M - 1) ltac:(lia)) as En.
  pose proof (Z.mod_pos_bound n (M - 1) HM1) as Hz.
  set (a := n / (M - 1)) in *.
  assert (Ha : 0 <= a < 24 * M).
  { split; [apply Z.div_pos; lia |].
    apply Z.div_lt_upper_bound; [lia | nia]. }
  pose proof (Z.div_mod a 12 ltac:(lia)) as Ea.
  pose proof (Z.mod_pos_bound a 12 ltac:(lia)) as Hk.
  set (b := a / 12) in *.
  assert (Hb : 0 <= b < 2 * M).
  { split; [apply Z.div_pos; lia |].
    apply Z.div_lt_upper_bound; lia. }
  pose proof (Z.div_mod b M ltac:(lia)) as Eb.
  pose proof (Z.mod_pos_bound b M ltac:(lia)) as Hw.
  assert (Hu : 0 <= b / M < 2).
  { split; [apply Z.div_pos; lia |].
    apply Z.div_lt_upper_bound; lia. }
  assert (Hv : valid_address (of_linear M n)).
  { apply valid_address_intro; [| left; reflexivity].
    unfold in_range. fold a. fold b. lia. }
  split; [exact Hv |]. split; [reflexivity |].
  unfold Pqubit.to_linear, of_linear. attrs. f_equal.
  fold a. fold b.
  replace (b mod M + M * (b / M)) with b by lia.
  replace (a mod 12 + 12 * b) with a by lia.
  lia.
Qed.

(** C1.  For every size [M >= 1]: on valid addresses [to_linear] returns
    [z + (M-1)*(k + 12*(w + M*bit))], with bit 0 for Vertical and 1 for
    Horizontal; two valid addresses of size [M] with the same index are
    equal (all five fields); and the indices reached from valid addresses
    are exactly the integers of [0, 24*M*(M-1)). *)
Theorem to_linear_bijection (M : Z) (HM : 1 <= M) :
  (forall q, valid_address q -> Pqubit.m q = M ->
     Pqubit.to_linear q
     = Ok (Pqubit.z q
           + (M - 1) * (Pqubit.k q + 12 * (Pqubit.w q + M * orientation_bit q))))
  /\ (forall q1 q2,
        valid_address q1 -> valid_address q2 ->
        Pqubit.m q1 = M -> Pqubit.m q2 = M ->
        Pqubit.to_linear q1 = Pqubit.to_linear q2 ->
        Pqubit.__eq__ q1 q2 = true /\ fields q1 = fields q2)
  /\ (forall n,
        (exists q, valid_address q /\ Pqubit.m q = M
                   /\ Pqubit.to_linear q = Ok n)
        <-> 0 <= n < 24 * M * (M - 1)).
Proof.
  split; [| split].
  - intros q Hq <-. apply to_linear_valid, Hq.
  - intros q1 q2 H1 H2 E1 E2 E.
    assert (Heq : Pqubit.__eq__ q1 q2 = true)
      by (apply to_linear_injective; congruence).
    split; [exact Heq |].
    unfold Pqubit.__eq__ in Heq. unfold fields.
    repeat (apply andb_prop in Heq; destruct Heq as [Heq ?]).
    repeat match goal with H : (_ =? _) = true |- _ => apply Z.eqb_eq in H end.
    congruence.
  - intros n. split.
    + intros (q & Hq & <- & E). apply (to_linear_bounds q n Hq E).
    + intros Hn. exists (of_linear M n). apply of_linear_valid; assumption.
Qed.

Lemma to_linear_bijection_witness :
  1 <= 2
  /\ forall n,
      (exists q, valid_address q /\ Pqubit.m q = 2
                 /\ Pqubit.to_linear q = Ok n)
      <-> 0 <= n < 24 * 2 * (2 - 1).
Proof.
  split; [lia |].
  exact (proj2 (proj2 (to_linear_bijection 2 ltac:(lia)))).
Defined.

(** ** The closed loop of the self test *)

(** C2.  From the valid address (size 3, Vertical, w=0, k=2, z=0) the chain
    external(+1), internal(-4), internal(+3), odd, internal(-2),
    internal(0), internal(-5), internal(-2) succeeds at every step and ends
    on an address equal to the first one in all five fields. *)
Theorem closed_loop_returns_to_start :
  Pqubit.new 3 0 0 2 0 None = Ok (Pqubit.mk true None 3 0 0 2 0)
  /\ valid_address (Pqubit.mk true None 3 0 0 2 0)
  /\ Pqubit.conn_external (Pqubit.mk true None 3 0 0 2 0) 1 None
     = Ok (Pqubit.mk true None 3 0 0 2 1)
  /\ Pqubit.conn_internal (Pqubit.mk true None 3 0 0 2 1) (-4)
     = Ok (Pqubit.mk true None 3 1 1 4 0)
  /\ Pqubit.conn_internal (Pqubit.mk true None 3 1 1 4 0) 3
     = Ok (Pqubit.mk true None 3 0 0 7 0)
  /\ Pqubit.conn_odd (Pqubit.mk true None 3 0 0 7 0) None
     = Ok (Pqubit.mk true None 3 0 0 6 0)
  /\ Pqubit.conn_internal (Pqubit.mk true None 3 0 0 6 0) (-2)
     = Ok (Pqubit.mk true None 3 1 1 2 0)
  /\ Pqubit.conn_internal (Pqubit.mk true None 3 1 1 2 0) 0
     = Ok (Pqubit.mk true None 3 0 0 8 0)
  /\ Pqubit.conn_internal (Pqubit.mk true None 3 0 0 8 0) (-5)
     = Ok (Pqubit.mk true None 3 1 0 7 0)
  /\ Pqubit.conn_internal (Pqubit.mk true None 3 1 0 7 0) (-2)
     = Ok (Pqubit.mk true None 3 0 0 2 0)
  /\ Pqubit.__eq__ (Pqubit.mk true None 3 0 0 2 0)
       (Pqubit.mk true None 3 0 0 2 0) = true
  /\ test_pqubit_walk
     = Ok (Pqubit.mk true None 3 0 0 2 0, Pqubit.mk true None 3 0 0 2 0)
  /\ test_pqubit = Ok tt.
Proof.
  split; [reflexivity |].
  split; [apply valid_address_intro; [unfold in_range; lia | now left] |].
  repeat split; vm_compute; reflexivity.
Qed.

(** ** The shift table and the parity-corrected coupling *)

(** Every integer of a slot range is one of its members. *)
Ltac enum_range x lo hi :=
  let rec go n fuel :=
    lazymatch fuel with
    | O => exfalso; lia
    | S ?fuel' =>
        let E := fresh "E" in
        destruct (Z.eq_dec x n) as [E | E];
        [subst x | let n' := eval cbv in (Z.succ n) in go n' fuel']
    end
  in
  let n := eval cbv in (Z.to_nat (hi - lo + 1)) in
  go lo n.

Lemma getitem_shift (i : Z) :
  0 <= i <= 11 -> getitem Pegasus0Shift i = Ok (shift_table i).
Proof.
  intros Hi. enum_range i 0 11; reflexivity.
Qed.

Lemma half_slot (k : Z) : 0 <= k <= 11 -> 0 <= k / 2 <= 5.
Proof. intros Hk. Z.div_mod_to_equations. lia. Qed.

Lemma quarter_slot (k : Z) :
  0 <= k <= 11 -> k / 4 = (if k <? 4 then 0 else if k <? 8 then 1 else 2).
Proof.
  intros Hk.
  destruct (Z.ltb_spec k 4); [| destruct (Z.ltb_spec k 8)];
    Z.div_mod_to_equations; lia.
Qed.

(** C3 does not hold as worded: the triple the code returns, which every
    caller unpacks as [(w2, k2, z2)], carries [z] plus a correction in its
    first place and [w] minus a correction in its last place, the other way
    round from the specification; and a slot outside [0, 11] can leave the
    shift table. *)
Lemma internal_coupling_not_as_specified :
  internal_coupling 0 0 2 1 4 = Ok (1, 4, 0)
  /\ spec_internal_coupling 0 0 2 1 4 = (0, 4, 1)
  /\ internal_coupling 0 0 2 1 4 <> Ok (spec_internal_coupling 0 0 2 1 4)
  /\ internal_coupling 1 0 0 1 8 = Ok (1, 8, -1)
  /\ spec_internal_coupling 1 0 0 1 8 = (-1, 8, 1)
  /\ internal_coupling 0 0 24 1 4 = Raise IndexError.
Proof.
  repeat split; try reflexivity.
  vm_compute. discriminate.
Qed.

Lemma internal_coupling_in_range (u w k z j : Z) :
  0 <= k <= 11 -> 0 <= j <= 11 ->
  internal_coupling u w k z j
  = Ok (if u =? 0 then
          (z + (if j <? shift_table (k / 2) then 1 else 0), j,
           w - (if k <? shift_table (6 + j / 2) then 1 else 0))
        else
          (z + (if j <? shift_table (6 + k / 2) then 1 else 0), j,
           w - (if k <? shift_table (j / 2) then 1 else 0))).
Proof.
  intros Hk Hj.
  pose proof (half_slot k Hk) as Hk2. pose proof (half_slot j Hj) as Hj2.
  unfold internal_coupling.
  destruct (u =? 0); rewrite !getitem_shift by lia; reflexivity.
Qed.

(** C3, amended.  For slots [k] and [j] in [0, 11] the parity-corrected
    coupling returns, for [u = 0] (Vertical), [(w2, k2, z2) = (z + d1, j,
    w - d2)] with [d1 = 1] iff [j < shift_table[k div 2]] and [d2 = 1] iff
    [k < shift_table[6 + j div 2]]; for any other [u] (Horizontal) it returns
    [(z + d2, j, w - d1)] with [d1 = 1] iff [k < shift_table[j div 2]] and
    [d2 = 1] iff [j < shift_table[6 + k div 2]]; [conn_internal_abs] builds
    the address of opposite orientation from that triple, in this order. *)
Theorem internal_coupling_result (u w k z j : Z)
  (Hk : 0 <= k <= 11) (Hj : 0 <= j <= 11) :
  internal_coupling u w k z j
  = Ok (if u =? 0 then
          (z + (if j <? shift_table (k / 2) then 1 else 0), j,
           w - (if k <? shift_table (6 + j / 2) then 1 else 0))
        else
          (z + (if j <? shift_table (6 + k / 2) then 1 else 0), j,
           w - (if k <? shift_table (j / 2) then 1 else 0)))
  /\ forall v cs m kw,
      Pqubit.conn_internal_abs (Pqubit.mk v cs m u w k z) j kw
      = if u =? 0 then
          Pqubit.new m (1 - u)
            (z + (if j <? shift_table (k / 2) then 1 else 0)) j
            (w - (if k <? shift_table (6 + j / 2) then 1 else 0)) kw
        else
          Pqubit.new m (1 - u)
            (z + (if j <? shift_table (6 + k / 2) then 1 else 0)) j
            (w - (if k <? shift_table (j / 2) then 1 else 0)) kw.
Proof.
  pose proof (internal_coupling_in_range u w k z j Hk Hj) as E.
  split; [exact E |].
  intros v cs m kw. unfold Pqubit.conn_internal_abs. attrs. rewrite E.
  destruct (u =? 0); reflexivity.
Qed.

Lemma internal_coupling_result_witness :
  (0 <= 2 <= 11) /\ (0 <= 4 <= 11)
  /\ internal_coupling 0 0 2 1 4
      = Ok (1 + (if 4 <? shift_table (2 / 2) then 1 else 0), 4,
            0 - (if 2 <? shift_table (6 + 4 / 2) then 1 else 0)).
Proof.
  split; [lia |]. split; [lia |].
  exact (proj1 (internal_coupling_result 0 0 2 1 4 ltac:(lia) ltac:(lia))).
Defined.

(** ** The tile geometry *)

Lemma triple_eq {A B C : Type} (a a' : A) (b b' : B) (c c' : C) :
  a = a' -> b = b' -> c = c' -> (a, b, c) = (a', b', c').
Proof. intros -> -> ->. reflexivity. Qed.

(** Both transforms by the quarter of the slot range [k] falls in.  The
    perpendicular offset of the result never depends on anything but [k]. *)
Lemma vert2horz_cases (w k : Z) :
  0 <= k <= 11 ->
  vert2horz w k
  = (if k <? 4 then (0, 8, w - 1) else if k <? 8 then (1, 4, w - 0)
     else (1, 0, w - 0)).
Proof.
  intros Hk. unfold vert2horz. rewrite (quarter_slot k Hk).
  destruct (k <? 4); [| destruct (k <? 8)];
    (apply triple_eq; [reflexivity | reflexivity |]);
    Z.div_mod_to_equations; lia.
Qed.

Lemma horz2vert_cases (w k : Z) :
  0 <= k <= 11 ->
  horz2vert w k
  = (if k <? 4 then (0, 8, w - 1) else if k <? 8 then (0, 4, w - 1)
     else (1, 0, w - 0)).
Proof.
  intros Hk. unfold horz2vert. rewrite (quarter_slot k Hk).
  destruct (k <? 4); [| destruct (k <? 8)];
    (apply triple_eq; [reflexivity | reflexivity |]);
    Z.div_mod_to_equations; lia.
Qed.

(** C9.  For every [w] and every slot [k] in [0, 11], the middle component
    [k0] returned by [vert2horz] and by [horz2vert] is 0, 4 or 8, a
    multiple of 4. *)
Theorem cluster_slot_in_0_4_8 (w k : Z) (Hk : 0 <= k <= 11) :
  (let '(_, k0, _) := vert2horz w k in
   (k0 = 0 \/ k0 = 4 \/ k0 = 8) /\ k0 mod 4 = 0)
  /\ (let '(_, k0, _) := horz2vert w k in
      (k0 = 0 \/ k0 = 4 \/ k0 = 8) /\ k0 mod 4 = 0).
Proof.
  rewrite (vert2horz_cases w k Hk), (horz2vert_cases w k Hk).
  destruct (k <? 4); [| destruct (k <? 8)]; cbv zeta iota beta;
    repeat split; auto.
Qed.

Lemma cluster_slot_in_0_4_8_witness :
  0 <= 5 <= 11
  /\ (let '(_, k0, _) := vert2horz 2 5 in
      (k0 = 0 \/ k0 = 4 \/ k0 = 8) /\ k0 mod 4 = 0)
  /\ (let '(_, k0, _) := horz2vert 2 5 in
      (k0 = 0 \/ k0 = 4 \/ k0 = 8) /\ k0 mod 4 = 0).
Proof.
  split; [lia |]. apply (cluster_slot_in_0_4_8 2 5). lia.
Defined.

(** C5 does not hold as worded: from [(w, k) = (0, 0)] either round trip
    comes back to [(1, 0)]. *)
Lemma tile_round_trip_loses_w :
  vert2horz 0 0 = (0, 8, -1)
  /\ horz2vert 0 8 = (1, 0, 0)
  /\ fst (vert_horz_vert 0 0) = (1, 0)
  /\ horz2vert 0 0 = (0, 8, -1)
  /\ vert2horz 0 8 = (1, 0, 0)
  /\ fst (horz_vert_horz 0 0) = (1, 0)
  /\ (1, 0) <> (0, 0).
Proof.
  repeat split; try reflexivity. discriminate.
Qed.

(** C5, amended.  For every [w] and every slot [k] in [0, 11] with
    [k mod 4 = 0], [vert2horz] followed by [horz2vert], and [horz2vert]
    followed by [vert2horz], return the slot [k] unchanged; the
    perpendicular offset they return is fixed by [k] alone (1 for [k = 0]
    and 0 otherwise in the first order, 0 for [k = 8] and 1 otherwise in the
    second), so [w] comes back only when it has that value. *)
Theorem tile_round_trip_slot (w k : Z)
  (Hk : 0 <= k <= 11) (H4 : k mod 4 = 0) :
  vert_horz_vert w k = ((if k =? 0 then 1 else 0), k, 0)
  /\ horz_vert_horz w k = ((if k =? 8 then 0 else 1), k, 0).
Proof.
  assert (Hk' : k = 0 \/ k = 4 \/ k = 8)
    by (Z.div_mod_to_equations; lia).
  unfold vert_horz_vert, horz_vert_horz.
  rewrite (vert2horz_cases w k Hk), (horz2vert_cases w k Hk).
  destruct Hk' as [-> | [-> | ->]]; split; reflexivity.
Qed.

Lemma tile_round_trip_slot_witness :
  0 <= 4 <= 11 /\ 4 mod 4 = 0
  /\ vert_horz_vert 7 4 = (0, 4, 0) /\ horz_vert_horz 7 4 = (1, 4, 0).
Proof.
  split; [lia |]. split; [reflexivity |].
  apply (tile_round_trip_slot 7 4); [lia | reflexivity].
Defined.

(** ** Couplers *)

Lemma new_in_range (m u w k z : Z) (kw : kwargs) :
  in_range m u w k z ->
  exists q, Pqubit.new m u w k z kw = Ok q /\ valid_address q
            /\ fields q = (m, u, w, k, z).
Proof.
  intros Hr. pose proof (proj2 (check_None_iff m u w k z) Hr) as Hc.
  unfold Pqubit.new, Pqubit.__init__. rewrite Hc.
  destruct (assert_valid_of kw); eexists; (split; [reflexivity |]);
    (split; [apply valid_address_intro; auto | reflexivity]).
Qed.

(** Inside the aligned cluster, the parity-corrected coupling agrees with
    the tile geometry on the slot and on the parallel offset, and puts [z]
    plus the geometry's [w2] in the perpendicular offset. *)
Lemma internal_coupling_cluster (u w k z dk : Z) :
  u = 0 \/ u = 1 -> 0 <= k <= 11 -> 0 <= dk <= 3 ->
  let '(w2, k02, z2) := if u =? 0 then vert2horz w k else horz2vert w k in
  internal_coupling u w k z ((k02 + dk) mod 12) = Ok (z + w2, k02 + dk, z2).
Proof.
  intros Hu Hk Hdk.
  rewrite (vert2horz_cases w k Hk), (horz2vert_cases w k Hk).
  destruct Hu as [-> | ->]; enum_range k 0 11; enum_range dk 0 3;
    reflexivity.
Qed.

(** What [conn_k44] and [conn_internal] build for the same valid address
    and [dk] in [0, 3]: [conn_k44] leaves the parallel offset [z] of its
    input out of the perpendicular offset of the result. *)
Lemma conn_k44_vs_conn_internal (q : Pqubit.t) (dk : Z) :
  valid_address q -> 0 <= dk <= 3 ->
  exists w2 k2 z2,
    Pqubit.conn_k44 q dk None
    = Pqubit.new (Pqubit.m q) (1 - Pqubit.u q) w2 k2 z2 None
    /\ Pqubit.conn_internal q dk
       = Pqubit.new (Pqubit.m q) (1 - Pqubit.u q) (Pqubit.z q + w2) k2 z2 None.
Proof.
  intros Hq Hdk.
  destruct (valid_address_inv q Hq) as (_ & Hu & _ & Hk & _).
  pose proof (internal_coupling_cluster _ (Pqubit.w q) _ (Pqubit.z q) dk
                Hu Hk Hdk) as E.
  unfold Pqubit.conn_k44, Pqubit.conn_internal, Pqubit.is_vert_coord.
  destruct (if Pqubit.u q =? 0 then vert2horz (Pqubit.w q) (Pqubit.k q)
            else horz2vert (Pqubit.w q) (Pqubit.k q)) as [[w2 k02] z2].
  exists w2, (k02 + dk), z2. rewrite E. split; reflexivity.
Qed.

Lemma conn_k44_conn_internal_at_z0 (q : Pqubit.t) (dk : Z) :
  valid_address q -> 0 <= dk <= 3 -> Pqubit.z q = 0 ->
  Pqubit.conn_k44 q dk None = Pqubit.conn_internal q dk.
Proof.
  intros Hq Hdk Hz.
  destruct (conn_k44_vs_conn_internal q dk Hq Hdk) as (w2 & k2 & z2 & E1 & E2).
  rewrite E1, E2, Hz. reflexivity.
Qed.

(** C4 fails on the code: on the valid address (size 3, Vertical, w=1, k=4,
    z=1) with [dk = 0], [conn_k44] returns the Horizontal address
    (w=1, k=4, z=1) and [conn_internal] the Horizontal address
    (w=2, k=4, z=1), which [__eq__] tells apart. *)
Theorem conn_k44_conn_internal_disagree :
  valid_address (Pqubit.mk true None 3 0 1 4 1)
  /\ Pqubit.conn_k44 (Pqubit.mk true None 3 0 1 4 1) 0 None
     = Ok (Pqubit.mk true None 3 1 1 4 1)
  /\ Pqubit.conn_internal (Pqubit.mk true None 3 0 1 4 1) 0
     = Ok (Pqubit.mk true None 3 1 2 4 1)
  /\ Pqubit.__eq__ (Pqubit.mk true None 3 1 1 4 1)
       (Pqubit.mk true None 3 1 2 4 1) = false.
Proof.
  split; [apply valid_address_intro; [unfold in_range; lia | now left] |].
  repeat split; reflexivity.
Qed.

(** C10.  On every valid address the odd coupler succeeds in either mode,
    keeps size, orientation, perpendicular and parallel offsets, sends an
    even slot [k] to [k+1] and an odd one to [k-1] (the slot with its lowest
    bit flipped), returns a valid address, and applied to that address
    gives back an address equal to the first in all five fields. *)
Theorem conn_odd_involution (q : Pqubit.t) (kw kw' : kwargs)
  (Hq : valid_address q) :
  exists q1,
    Pqubit.conn_odd q kw = Ok q1 /\ valid_address q1
    /\ Pqubit.m q1 = Pqubit.m q /\ Pqubit.u q1 = Pqubit.u q
    /\ Pqubit.w q1 = Pqubit.w q /\ Pqubit.z q1 = Pqubit.z q
    /\ Pqubit.k q1 = odd_slot (Pqubit.k q)
    /\ Pqubit.k q1 = Z.lxor (Pqubit.k q) 1
    /\ exists q2,
        Pqubit.conn_odd q1 kw' = Ok q2 /\ Pqubit.__eq__ q2 q = true
        /\ fields q2 = fields q.
Proof.
  destruct (valid_address_inv q Hq) as (Hm & Hu & Hw & Hk & Hz).
  destruct q as [v cs m u w k z]. attrs.
  assert (Hodd : forall k0, 0 <= k0 <= 11 ->
            (if k0 mod 2 =? 0 then k0 + 1 else k0 - 1) = odd_slot k0
            /\ odd_slot k0 = Z.lxor k0 1 /\ 0 <= odd_slot k0 <= 11
            /\ odd_slot (odd_slot k0) = k0).
  { intros k0 Hk0. enum_range k0 0 11; repeat split; try reflexivity;
      vm_compute; discriminate. }
  destruct (Hodd k Hk) as (E1 & E2 & Hk1 & E3).
  destruct (Hodd (odd_slot k) Hk1) as (E1' & _).
  destruct (new_in_range m u w (odd_slot k) z kw) as (q1 & N1 & V1 & F1);
    [unfold in_range; lia |].
  destruct (new_in_range m u w k z kw') as (q2 & N2 & V2 & F2);
    [unfold in_range; lia |].
  exists q1. unfold Pqubit.conn_odd at 1. attrs. rewrite E1.
  split; [exact N1 |]. split; [exact V1 |].
  unfold fields in F1, F2. injection F1 as Fm Fu Fw Fk Fz.
  repeat (split; [congruence |]).
  exists q2. unfold Pqubit.conn_odd. rewrite Fm, Fu, Fw, Fk, Fz, E1', E3.
  split; [exact N2 |].
  unfold Pqubit.__eq__, fields. attrs. injection F2 as -> -> -> -> ->.
  rewrite !Z.eqb_refl. split; reflexivity.
Qed.

Lemma conn_odd_involution_witness :
  valid_address (Pqubit.mk true None 3 1 2 7 1)
  /\ exists q1,
      Pqubit.conn_odd (Pqubit.mk true None 3 1 2 7 1) None = Ok q1
      /\ valid_address q1
      /\ Pqubit.m q1 = 3 /\ Pqubit.u q1 = 1 /\ Pqubit.w q1 = 2
      /\ Pqubit.z q1 = 1 /\ Pqubit.k q1 = odd_slot 7
      /\ Pqubit.k q1 = Z.lxor 7 1
      /\ exists q2,
          Pqubit.conn_odd q1 None = Ok q2
          /\ Pqubit.__eq__ q2 (Pqubit.mk true None 3 1 2 7 1) = true
          /\ fields q2 = fields (Pqubit.mk true None 3 1 2 7 1).
Proof.
  assert (Hv : valid_address (Pqubit.mk true None 3 1 2 7 1))
    by (apply valid_address_intro; [unfold in_range; lia | now left]).
  split; [exact Hv |].
  exact (conn_odd_involution (Pqubit.mk true None 3 1 2 7 1) None None Hv).
Defined.

(** ** Failure of the couplers *)

Lemma getitem_raises_IndexError (l : list Z) (i : Z) (e : exn) :
  getitem l i = Raise e -> e = IndexError.
Proof.
  unfold getitem.
  destruct (_ && _); [destruct (nth_error _ _) |]; congruence.
Qed.

Lemma internal_coupling_raises (u w k z j : Z) (e : exn) :
  0 <= j <= 11 -> internal_coupling u w k z j = Raise e ->
  e = IndexError /\ ~ 0 <= k <= 11.
Proof.
  intros Hj E. split.
  - unfold internal_coupling in E.
    destruct (u =? 0);
      repeat match type of E with
        | bind (getitem ?l ?i) _ = _ =>
            let G := fresh "G" in
            destruct (getitem l i) eqn:G;
            [cbn [bind] in E
            | cbn [bind] in E; apply getitem_raises_IndexError in G; congruence]
        end; discriminate.
  - intros Hk.
    rewrite (internal_coupling_in_range u w k z j Hk Hj) in E.
    discriminate.
Qed.

(** C6 does not hold as worded: a coupler fails on a valid input whose
    neighbour is out of range, and on an input flagged invalid it neither
    fails nor keeps the non-strict mode. *)
Lemma couplers_validate_their_result :
  valid_address (Pqubit.mk true None 3 0 0 2 1)
  /\ Pqubit.conn_external (Pqubit.mk true None 3 0 0 2 1) 1 None
     = Raise (ValueError "Invalid z: 2. (Valid range is [0, 1] with m=3)")
  /\ valid_address (Pqubit.mk true None 3 0 0 0 0)
  /\ Pqubit.conn_internal (Pqubit.mk true None 3 0 0 0 0) 0
     = Raise (ValueError "Invalid z: -1. (Valid range is [0, 1] with m=3)")
  /\ Pqubit.__init__ 3 0 0 2 (-1) false
     = Ok (Pqubit.mk false
             (Some (Some "Invalid z: -1. (Valid range is [0, 1] with m=3)"%string))
             3 0 0 2 (-1))
  /\ Pqubit.conn_external
       (Pqubit.mk false
          (Some (Some "Invalid z: -1. (Valid range is [0, 1] with m=3)"%string))
          3 0 0 2 (-1)) 1 None
     = Ok (Pqubit.mk true None 3 0 0 2 0).
Proof.
  split; [apply valid_address_intro; [unfold in_range; lia | now left] |].
  split; [reflexivity |].
  split; [apply valid_address_intro; [unfold in_range; lia | now left] |].
  repeat split; reflexivity.
Qed.

(** C6, amended.  No coupler looks at the validity flag or at the stored
    message of its input: for every input object, flagged valid or not, it
    computes the fields of the neighbour and hands them to the constructor,
    in the mode given by the call's [assert_valid] keyword (strict when the
    keyword is absent; [conn_internal] takes no keyword and is always
    strict).  So in strict mode a coupler fails, with the violation of the
    neighbour's fields, exactly when these are out of range, and returns a
    valid address otherwise; in non-strict mode [conn_external], [conn_odd]
    and [conn_k44] always return an address, flagged invalid with that
    violation when out of range.  [conn_internal] can fail otherwise only
    with an index error of the shift table, and only when the slot of its
    input is outside [0, 11]. *)
Theorem couplers_failure_semantics (q : Pqubit.t) (dz dk : Z) (kw : kwargs) :
  validated (assert_valid_of kw)
    (Pqubit.m q) (Pqubit.u q) (Pqubit.w q) (Pqubit.k q) (Pqubit.z q + dz)
    (Pqubit.conn_external q dz kw)
  /\ validated (assert_valid_of kw)
       (Pqubit.m q) (Pqubit.u q) (Pqubit.w q)
       (if Pqubit.k q mod 2 =? 0 then Pqubit.k q + 1 else Pqubit.k q - 1)
       (Pqubit.z q)
       (Pqubit.conn_odd q kw)
  /\ (let '(w2, k02, z2) :=
        if Pqubit.is_vert_coord q then vert2horz (Pqubit.w q) (Pqubit.k q)
        else horz2vert (Pqubit.w q) (Pqubit.k q) in
      validated (assert_valid_of kw)
        (Pqubit.m q) (1 - Pqubit.u q) w2 (k02 + dk) z2
        (Pqubit.conn_k44 q dk kw)
      /\ match internal_coupling (Pqubit.u q) (Pqubit.w q) (Pqubit.k q)
                 (Pqubit.z q) ((k02 + dk) mod 12) with
         | Ok (w3, k3, z3) =>
             validated true (Pqubit.m q) (1 - Pqubit.u q) w3 k3 z3
               (Pqubit.conn_internal q dk)
         | Raise e =>
             Pqubit.conn_internal q dk = Raise e /\ e = IndexError
             /\ ~ 0 <= Pqubit.k q <= 11
         end).
Proof.
  split; [apply new_validated |].
  split; [apply new_validated |].
  unfold Pqubit.conn_k44, Pqubit.conn_internal.
  destruct (if Pqubit.is_vert_coord q then vert2horz (Pqubit.w q) (Pqubit.k q)
            else horz2vert (Pqubit.w q) (Pqubit.k q)) as [[w2 k02] z2].
  split; [apply new_validated |].
  destruct (internal_coupling _ _ _ _ _) as [[[w3 k3] z3] | e] eqn:E;
    cbn [bind].
  - apply (new_validated _ _ _ _ _ None).
  - split; [reflexivity |].
    pose proof (Z.mod_pos_bound (k02 + dk) 12 ltac:(lia)) as Hj.
    refine (internal_coupling_raises _ _ _ _ _ _ _ E). lia.
Qed.

(** ** Strict and deferred validation *)

Lemma init_strict_first_violation (m u w k z : Z) :
  Pqubit.__init__ m u w k z true
  = match first_violation m u w k z with
    | Some f => Raise (ValueError (violation_message m u w k z f))
    | None => Ok (Pqubit.mk true None m u w k z)
    end.
Proof.
  unfold Pqubit.__init__. rewrite check_first_violation.
  destruct (first_violation m u w k z); reflexivity.
Qed.

Lemma init_strict_fails (m u w k z : Z) (f : field) :
  first_violation m u w k z = Some f ->
  exists s, Pqubit.__init__ m u w k z true = Raise (ValueError s).
Proof.
  intros E. rewrite init_strict_first_violation, E. eauto.
Qed.

Lemma first_violation_size_1 (u w k z : Z) :
  first_violation 1 u w k z
  = if negb ((u =? 0) || (u =? 1)) then Some Orientation
    else if negb (w =? 0) then Some PerpOffset
    else if negb ((0 <=? k) && (k <=? 11)) then Some Slot
    else Some ParallelOffset.
Proof.
  unfold first_violation, validation_order. cbn [find rule_holds].
  change (1 <=? 1) with true. cbn [negb].
  destruct ((u =? 0) || (u =? 1)); cbn [negb]; [| reflexivity].
  replace ((0 <=? w) && (w <=? 1 - 1)) with (w =? 0)
    by (destruct (Z.eqb_spec w 0), (Z.leb_spec 0 w), (Z.leb_spec w (1 - 1));
        cbn; lia || reflexivity).
  destruct (w =? 0); cbn [negb]; [| reflexivity].
  destruct ((0 <=? k) && (k <=? 11)); cbn [negb]; [| reflexivity].
  replace ((0 <=? z) && (z <=? 1 - 2)) with false
    by (destruct (Z.leb_spec 0 z), (Z.leb_spec z (1 - 2));
        cbn; lia || reflexivity).
  reflexivity.
Qed.

Lemma first_violation_slot (m u w k z : Z) :
  ~ 0 <= k <= 11 ->
  exists f, first_violation m u w k z = Some f /\ f <> ParallelOffset.
Proof.
  intros Hk.
  unfold first_violation, validation_order. cbn [find rule_holds].
  destruct (1 <=? m); cbn [negb]; [| eexists; split; [eauto | discriminate]].
  destruct ((u =? 0) || (u =? 1)); cbn [negb];
    [| eexists; split; [eauto | discriminate]].
  destruct ((0 <=? w) && (w <=? m - 1)); cbn [negb];
    [| eexists; split; [eauto | discriminate]].
  replace ((0 <=? k) && (k <=? 11)) with false
    by (destruct (Z.leb_spec 0 k), (Z.leb_spec k 11); cbn; lia || reflexivity).
  cbn [negb]. eexists; split; [eauto | discriminate].
Qed.

(** C7.  The validator reports the first rule that fails in the order size,
    orientation, perp_offset, slot, parallel_offset, and strict construction
    raises exactly that one violation (and succeeds when no rule fails).
    With size 1 the perp_offset rule accepts 0 only, the parallel_offset
    rule accepts nothing, and construction fails whatever the fields; a
    slot of 12 or of -1, and a size of 0, fail construction whatever the
    other fields. *)
Theorem strict_validation_order_and_boundaries :
  (forall m u w k z,
      Pqubit._check_if_not_valid m u w k z
      = option_map (violation_message m u w k z) (first_violation m u w k z)
      /\ Pqubit.__init__ m u w k z true
         = match first_violation m u w k z with
           | Some f => Raise (ValueError (violation_message m u w k z f))
           | None => Ok (Pqubit.mk true None m u w k z)
           end)
  /\ (forall u w k z,
         rule_holds 1 u w k z PerpOffset = (w =? 0)
         /\ rule_holds 1 u w k z ParallelOffset = false
         /\ exists s, Pqubit.__init__ 1 u w k z true = Raise (ValueError s))
  /\ Pqubit.__init__ 1 0 0 0 0 true
     = Raise (ValueError "Invalid z: 0. (Valid range is [0, -1] with m=1)")
  /\ Pqubit.__init__ 1 0 1 0 0 true
     = Raise (ValueError "Invalid w: 1. (Valid range is [0, 0] with m=1)")
  /\ (forall m u w z,
         (exists s, Pqubit.__init__ m u w 12 z true = Raise (ValueError s))
         /\ exists s, Pqubit.__init__ m u w (-1) z true = Raise (ValueError s))
  /\ Pqubit.__init__ 3 0 0 12 0 true
     = Raise (ValueError "Invalid k: 12. (Valid range is [0, 11])")
  /\ Pqubit.__init__ 3 0 0 (-1) 0 true
     = Raise (ValueError "Invalid k: -1. (Valid range is [0, 11])")
  /\ (forall u w k z,
         Pqubit.__init__ 0 u w k z true
         = Raise (ValueError
                    "Invalid m: 0. (Must be an integer greater than 0)")).
Proof.
  split.
  { intros. split;
      [apply check_first_violation | apply init_strict_first_violation]. }
  split.
  { intros u w k z. split; [| split].
    - cbn [rule_holds].
      destruct (Z.eqb_spec w 0), (Z.leb_spec 0 w), (Z.leb_spec w (1 - 1));
        cbn; lia || reflexivity.
    - cbn [rule_holds].
      destruct (Z.leb_spec 0 z), (Z.leb_spec z (1 - 2));
        cbn; lia || reflexivity.
    - pose proof (first_violation_size_1 u w k z) as E.
      destruct (negb _) in E; [eapply init_strict_fails, E |].
      destruct (negb _) in E; [eapply init_strict_fails, E |].
      destruct (negb _) in E; eapply init_strict_fails, E. }
  split; [reflexivity |]. split; [reflexivity |].
  split.
  { intros m u w z. split.
    - destruct (first_violation_slot m u w 12 z ltac:(lia)) as (f & E & _).
      eapply init_strict_fails, E.
    - destruct (first_violation_slot m u w (-1) z ltac:(lia)) as (f & E & _).
      eapply init_strict_fails, E. }
  split; [reflexivity |]. split; [reflexivity |].
  intros u w k z. reflexivity.
Qed.

Lemma init_nonstrict (m u w k z : Z) :
  exists q,
    Pqubit.__init__ m u w k z false = Ok q /\ fields q = (m, u, w, k, z)
    /\ Pqubit._check_str q = Some (Pqubit._check_if_not_valid m u w k z)
    /\ Pqubit._valid_coord q
       = match Pqubit._check_if_not_valid m u w k z with
         | Some _ => false
         | None => true
         end.
Proof.
  unfold Pqubit.__init__.
  destruct (Pqubit._check_if_not_valid m u w k z);
    eexists; repeat split; reflexivity.
Qed.

Lemma invalid_address_inv (q : Pqubit.t) :
  invalid_address q ->
  exists s,
    Pqubit._check_if_not_valid (Pqubit.m q) (Pqubit.u q) (Pqubit.w q)
      (Pqubit.k q) (Pqubit.z q) = Some s
    /\ Pqubit._check_str q = Some (Some s).
Proof.
  intros [[av Hc] Hv]. unfold Pqubit.__init__ in Hc.
  destruct (Pqubit._check_if_not_valid _ _ _ _ _) as [s |], av;
    try discriminate; apply Ok_inj in Hc; rewrite <- Hc in Hv |- *;
    try discriminate.
  exists s. split; reflexivity.
Qed.

(** C8.  Non-strict construction returns an address for every choice of
    fields, flagged valid exactly when the fields are in range; with slot 15
    the address is flagged invalid; [none_if_invalid] gives [None] on an
    invalid address and the address itself on a valid one; and [to_linear]
    on an invalid address raises an error whose text quotes the violation
    stored at construction. *)
Theorem deferred_validity :
  (forall m u w k z,
      exists q,
        Pqubit.__init__ m u w k z false = Ok q
        /\ fields q = (m, u, w, k, z)
        /\ (Pqubit._valid_coord q = true <-> in_range m u w k z))
  /\ (forall m u w z,
         exists q, Pqubit.__init__ m u w 15 z false = Ok q
                   /\ invalid_address q)
  /\ (forall q, valid_address q -> Pqubit.none_if_invalid q = Some q)
  /\ (forall q,
         invalid_address q ->
         Pqubit.none_if_invalid q = None
         /\ exists s,
             Pqubit._check_if_not_valid (Pqubit.m q) (Pqubit.u q)
               (Pqubit.w q) (Pqubit.k q) (Pqubit.z q) = Some s
             /\ Pqubit._check_str q = Some (Some s)
             /\ Pqubit.to_linear q = Raise (conversion_error s))
  /\ (exists q,
         Pqubit.__init__ 3 0 0 15 0 false = Ok q
         /\ Pqubit.none_if_invalid q = None
         /\ Pqubit._check_str q
            = Some (Some "Invalid k: 15. (Valid range is [0, 11])"%string)
         /\ Pqubit.to_linear q
            = Raise (conversion_error
                       "Invalid k: 15. (Valid range is [0, 11])")).
Proof.
  split.
  { intros m u w k z.
    destruct (init_nonstrict m u w k z) as (q & E & F & _ & V).
    exists q. split; [exact E |]. split; [exact F |].
    rewrite V, <- check_None_iff.
    destruct (Pqubit._check_if_not_valid m u w k z);
      split; congruence. }
  split.
  { intros m u w z.
    destruct (init_nonstrict m u w 15 z) as (q & E & F & _ & V).
    exists q. split; [exact E |].
    unfold fields in F. injection F as Fm Fu Fw Fk Fz.
    split.
    - exists false. rewrite Fm, Fu, Fw, Fk, Fz. exact E.
    - rewrite V.
      destruct (Pqubit._check_if_not_valid m u w 15 z) eqn:Hc;
        [reflexivity |].
      apply check_None_iff in Hc. unfold in_range in Hc. lia. }
  split.
  { intros q [_ Hv]. unfold Pqubit.none_if_invalid. rewrite Hv. reflexivity. }
  split.
  { intros q Hq. destruct (invalid_address_inv q Hq) as (s & Hc & Hs).
    destruct Hq as [_ Hv].
    split; [unfold Pqubit.none_if_invalid; rewrite Hv; reflexivity |].
    exists s. split; [exact Hc |]. split; [exact Hs |].
    unfold Pqubit.to_linear, Pqubit.format_check_str.
    rewrite Hv, Hs. reflexivity. }
  eexists. repeat split; reflexivity.
Qed.

Lemma deferred_validity_witness :
  valid_address (Pqubit.mk true (Some None) 3 0 0 2 0)
  /\ Pqubit.none_if_invalid (Pqubit.mk true (Some None) 3 0 0 2 0)
     = Some (Pqubit.mk true (Some None) 3 0 0 2 0)
  /\ invalid_address
       (Pqubit.mk false
          (Some (Some "Invalid k: 15. (Valid range is [0, 11])"%string))
          3 0 0 15 0)
  /\ Pqubit.none_if_invalid
       (Pqubit.mk false
          (Some (Some "Invalid k: 15. (Valid range is [0, 11])"%string))
          3 0 0 15 0)
     = None.
Proof.
  assert (Hv : valid_address (Pqubit.mk true (Some None) 3 0 0 2 0))
    by (apply valid_address_intro; [unfold in_range; lia | now right]).
  assert (Hi : invalid_address
                 (Pqubit.mk false
                    (Some (Some "Invalid k: 15. (Valid range is [0, 11])"%string))
                    3 0 0 15 0))
    by (split; [exists false |]; reflexivity).
  split; [exact Hv |].
  split; [exact (proj1 (proj2 (proj2 deferred_validity)) _ Hv) |].
  split; [exact Hi |].
  exact (proj1 (proj1 (proj2 (proj2 (proj2 deferred_validity))) _ Hi)).
Defined.

(** * Further properties of the class *)

(** ** Equality and the orientation predicates *)

Lemma eq_true_fields (a b : Pqubit.t) :
  Pqubit.__eq__ a b = true <-> fields a = fields b.
Proof.
  unfold Pqubit.__eq__, fields. split.
  - intros H.
    repeat (apply andb_prop in H; destruct H as [H ?]).
    repeat match goal with E : (_ =? _) = true |- _ => apply Z.eqb_eq in E end.
    congruence.
  - intros H. injection H as -> -> -> -> ->.
    rewrite !Z.eqb_refl. reflexivity.
Qed.

(** X1.  [__eq__] is an equivalence relation that holds exactly when the
    five coordinates agree; the validity flag and the stored message play
    no part in it. *)
Theorem eq_is_equivalence_on_fields :
  (forall a, Pqubit.__eq__ a a = true)
  /\ (forall a b, Pqubit.__eq__ a b = Pqubit.__eq__ b a)
  /\ (forall a b c,
        Pqubit.__eq__ a b = true -> Pqubit.__eq__ b c = true ->
        Pqubit.__eq__ a c = true)
  /\ (forall a b, Pqubit.__eq__ a b = true <-> fields a = fields b)
  /\ (forall v v' cs cs' m u w k z,
        Pqubit.__eq__ (Pqubit.mk v cs m u w k z) (Pqubit.mk v' cs' m u w k z)
        = true).
Proof.
  split; [intros a; apply eq_true_fields; reflexivity |].
  split.
  { intros a b.
    destruct (Pqubit.__eq__ a b) eqn:E1, (Pqubit.__eq__ b a) eqn:E2;
      try reflexivity.
    - apply eq_true_fields in E1. symmetry in E1.
      apply eq_true_fields in E1. congruence.
    - apply eq_true_fields in E2. symmetry in E2.
      apply eq_true_fields in E2. congruence. }
  split.
  { intros a b c H1 H2. apply eq_true_fields.
    apply eq_true_fields in H1, H2. congruence. }
  split; [exact eq_true_fields |].
  intros. apply eq_true_fields. reflexivity.
Qed.

(** X2.  On a valid address exactly one of [is_vert_coord] and
    [is_horz_coord] holds; on an object whose orientation is neither 0 nor
    1 (which non-strict construction accepts and flags) both are false. *)
Theorem orientation_predicates (q : Pqubit.t) :
  (valid_address q ->
   Pqubit.is_horz_coord q = negb (Pqubit.is_vert_coord q))
  /\ (Pqubit.u q <> 0 -> Pqubit.u q <> 1 ->
      Pqubit.is_vert_coord q = false /\ Pqubit.is_horz_coord q = false
      /\ forall av q',
          Pqubit.__init__ (Pqubit.m q) (Pqubit.u q) (Pqubit.w q) (Pqubit.k q)
            (Pqubit.z q) av = Ok q' ->
          Pqubit._valid_coord q' = false).
Proof.
  unfold Pqubit.is_vert_coord, Pqubit.is_horz_coord. split.
  - intros Hq. destruct (valid_address_inv q Hq) as (_ & [-> | ->] & _);
      reflexivity.
  - intros H0 H1.
    split; [apply Z.eqb_neq; exact H0 |].
    split; [apply Z.eqb_neq; exact H1 |].
    intros av q' E. unfold Pqubit.__init__ in E.
    destruct (Pqubit._check_if_not_valid _ _ _ _ _) as [s |] eqn:Hc.
    + destruct av; [discriminate |]. apply Ok_inj in E. subst q'. reflexivity.
    + apply check_None_iff in Hc. unfold in_range in Hc. lia.
Qed.

Lemma orientation_predicates_witness :
  valid_address (Pqubit.mk true None 3 1 0 2 0)
  /\ Pqubit.is_horz_coord (Pqubit.mk true None 3 1 0 2 0)
     = negb (Pqubit.is_vert_coord (Pqubit.mk true None 3 1 0 2 0)).
Proof.
  assert (Hv : valid_address (Pqubit.mk true None 3 1 0 2 0))
    by (apply valid_address_intro; [unfold in_range; lia | now left]).
  split; [exact Hv |].
  exact (proj1 (orientation_predicates _) Hv).
Defined.

Lemma prefix_nil (s : string) : String.prefix EmptyString s = true.
Proof. destruct s; reflexivity. Qed.

(** X3.  The printed form starts with the marker [!!!] exactly when the
    object is flagged invalid; without the marker it reads [Vert...] when
    [u = 0] and [Horz...] for every other [u]. *)
Theorem repr_marks_invalid (q : Pqubit.t) :
  String.prefix "!!!" (Pqubit.__repr__ q) = negb (Pqubit._valid_coord q)
  /\ (Pqubit._valid_coord q = true ->
      String.prefix "Vert(M=" (Pqubit.__repr__ q) = (Pqubit.u q =? 0)
      /\ String.prefix "Horz(M=" (Pqubit.__repr__ q)
         = negb (Pqubit.u q =? 0)).
Proof.
  unfold Pqubit.__repr__, Pqubit.is_vert_coord.
  destruct (Pqubit._valid_coord q), (Pqubit.u q =? 0); cbn;
    rewrite ?prefix_nil;
    (split; [reflexivity | intros H; try discriminate; split; reflexivity]).
Qed.

Lemma repr_marks_invalid_witness :
  Pqubit.__repr__ (Pqubit.mk true None 3 0 0 2 0)
  = "Vert(M=3)[u=0, w: 0, k: 2, z: 0]"%string
  /\ String.prefix "Vert(M=" (Pqubit.__repr__ (Pqubit.mk true None 3 0 0 2 0))
     = true.
Proof.
  split; [reflexivity |].
  exact (proj1 (proj2 (repr_marks_invalid (Pqubit.mk true None 3 0 0 2 0))
                  eq_refl)).
Defined.

(** ** What the constructor returns *)

Lemma new_ok_fields (m u w k z : Z) (kw : kwargs) (q : Pqubit.t) :
  Pqubit.new m u w k z kw = Ok q ->
  Pqubit.m q = m /\ Pqubit.u q = u /\ Pqubit.w q = w /\ Pqubit.k q = k
  /\ Pqubit.z q = z.
Proof.
  unfold Pqubit.new, Pqubit.__init__.
  destruct (assert_valid_of kw), (Pqubit._check_if_not_valid m u w k z);
    intros E; try discriminate; apply Ok_inj in E; subst q;
    repeat split; reflexivity.
Qed.

Lemma new_ok_constructed (m u w k z : Z) (kw : kwargs) (q : Pqubit.t) :
  Pqubit.new m u w k z kw = Ok q -> constructed q.
Proof.
  intros E.
  destruct (new_ok_fields _ _ _ _ _ _ _ E) as (Fm & Fu & Fw & Fk & Fz).
  exists (assert_valid_of kw). rewrite Fm, Fu, Fw, Fk, Fz. exact E.
Qed.

Lemma new_strict_valid (m u w k z : Z) (kw : kwargs) (q : Pqubit.t) :
  assert_valid_of kw = true -> Pqubit.new m u w k z kw = Ok q ->
  valid_address q.
Proof.
  intros Hkw E. split; [eapply new_ok_constructed, E |].
  unfold Pqubit.new, Pqubit.__init__ in E. rewrite Hkw in E.
  destruct (Pqubit._check_if_not_valid m u w k z); [discriminate |].
  apply Ok_inj in E. subst q. reflexivity.
Qed.

Lemma new_ok_valid_iff (m u w k z : Z) (kw : kwargs) (q : Pqubit.t) :
  Pqubit.new m u w k z kw = Ok q ->
  (Pqubit._valid_coord q = true <-> in_range m u w k z).
Proof.
  intros E. rewrite <- check_None_iff.
  unfold Pqubit.new, Pqubit.__init__ in E.
  destruct (assert_valid_of kw), (Pqubit._check_if_not_valid m u w k z);
    try discriminate; apply Ok_inj in E; subst q; cbn; split; congruence.
Qed.

Lemma new_out_of_range_strict (m u w k z : Z) (kw : kwargs) :
  assert_valid_of kw = true -> 1 <= m -> u = 0 \/ u = 1 -> 0 <= w <= m - 1 ->
  0 <= k <= 11 -> ~ 0 <= z <= m - 2 ->
  Pqubit.new m u w k z kw
  = Raise (ValueError (violation_message m u w k z ParallelOffset)).
Proof.
  intros Hkw Hm Hu Hw Hk Hz.
  unfold Pqubit.new. rewrite Hkw, init_strict_first_violation.
  unfold first_violation, validation_order. cbn [find rule_holds].
  replace (1 <=? m) with true by (symmetry; apply Z.leb_le; lia).
  replace ((u =? 0) || (u =? 1)) with true
    by (destruct Hu; subst u; reflexivity).
  replace ((0 <=? w) && (w <=? m - 1)) with true
    by (symmetry; apply andb_true_intro; split; apply Z.leb_le; lia).
  replace ((0 <=? k) && (k <=? 11)) with true
    by (symmetry; apply andb_true_intro; split; apply Z.leb_le; lia).
  replace ((0 <=? z) && (z <=? m - 2)) with false
    by (destruct (Z.leb_spec 0 z), (Z.leb_spec z (m - 2));
        cbn; lia || reflexivity).
  reflexivity.
Qed.

(** ** The external coupler *)

(** X4.  Without [assert_valid=False], an address returned by any coupler
    is a valid address, whatever the input object was. *)
Theorem strict_couplers_return_valid
  (q q' : Pqubit.t) (dz dk j : Z) (kw : kwargs)
  (Hkw : assert_valid_of kw = true) :
  (Pqubit.conn_external q dz kw = Ok q' -> valid_address q')
  /\ (Pqubit.conn_odd q kw = Ok q' -> valid_address q')
  /\ (Pqubit.conn_k44 q dk kw = Ok q' -> valid_address q')
  /\ (Pqubit.conn_internal q dk = Ok q' -> valid_address q')
  /\ (Pqubit.conn_internal_abs q j kw = Ok q' -> valid_address q').
Proof.
  split; [apply new_strict_valid, Hkw |].
  split; [apply new_strict_valid, Hkw |].
  split.
  { unfold Pqubit.conn_k44.
    destruct (if Pqubit.is_vert_coord q then _ else _) as [[w2 k02] z2].
    apply new_strict_valid, Hkw. }
  split.
  { unfold Pqubit.conn_internal.
    destruct (if Pqubit.is_vert_coord q then _ else _) as [[w2 k02] z2].
    destruct (internal_coupling _ _ _ _ _) as [[[w3 k3] z3] | e];
      cbn [bind]; [| discriminate].
    apply new_strict_valid. reflexivity. }
  unfold Pqubit.conn_internal_abs.
  destruct (internal_coupling _ _ _ _ _) as [[[w3 k3] z3] | e];
    cbn [bind]; [| discriminate].
  apply new_strict_valid, Hkw.
Qed.

Lemma strict_couplers_return_valid_witness :
  assert_valid_of None = true
  /\ Pqubit.conn_internal (Pqubit.mk false
          (Some (Some "Invalid z: 2. (Valid range is [0, 1] with m=3)"%string))
          3 0 0 2 2) (-4)
     = Ok (Pqubit.mk true None 3 1 2 4 0)
  /\ valid_address (Pqubit.mk true None 3 1 2 4 0).
Proof.
  split; [reflexivity |]. split; [reflexivity |].
  exact (proj1 (proj2 (proj2 (proj2
           (strict_couplers_return_valid
              (Pqubit.mk false
          (Some (Some "Invalid z: 2. (Valid range is [0, 1] with m=3)"%string))
          3 0 0 2 2) (Pqubit.mk true None 3 1 2 4 0)
              0 (-4) 0 None eq_refl)))) eq_refl).
Defined.

(** X5.  On a valid address the external coupler, called in strict mode,
    returns the address moved by [dz] along the parallel offset when
    [0 <= z + dz <= m - 2], and otherwise raises the violation of the
    parallel offset; with the default [dz = 1] it fails exactly at the end
    of the chain, [z = m - 2]. *)
Theorem conn_external_strict_bounds (q : Pqubit.t) (dz : Z)
  (Hq : valid_address q) :
  (0 <= Pqubit.z q + dz <= Pqubit.m q - 2 ->
   Pqubit.conn_external q dz None
   = Ok (Pqubit.mk true None (Pqubit.m q) (Pqubit.u q) (Pqubit.w q)
           (Pqubit.k q) (Pqubit.z q + dz)))
  /\ (~ 0 <= Pqubit.z q + dz <= Pqubit.m q - 2 ->
      Pqubit.conn_external q dz None
      = Raise (ValueError
                 (violation_message (Pqubit.m q) (Pqubit.u q) (Pqubit.w q)
                    (Pqubit.k q) (Pqubit.z q + dz) ParallelOffset)))
  /\ ((exists q', Pqubit.conn_external q 1 None = Ok q')
      <-> Pqubit.z q < Pqubit.m q - 2).
Proof.
  destruct (valid_address_inv q Hq) as (Hm & Hu & Hw & Hk & Hz).
  assert (Hin : 0 <= Pqubit.z q + dz <= Pqubit.m q - 2 ->
                Pqubit.conn_external q dz None
                = Ok (Pqubit.mk true None (Pqubit.m q) (Pqubit.u q)
                        (Pqubit.w q) (Pqubit.k q) (Pqubit.z q + dz))).
  { intros Hz'. unfold Pqubit.conn_external, Pqubit.new, Pqubit.__init__.
    rewrite (proj2 (check_None_iff _ _ _ _ _)); [reflexivity |].
    unfold in_range. lia. }
  assert (Hin1 : 0 <= Pqubit.z q + 1 <= Pqubit.m q - 2 ->
                 Pqubit.conn_external q 1 None
                 = Ok (Pqubit.mk true None (Pqubit.m q) (Pqubit.u q)
                         (Pqubit.w q) (Pqubit.k q) (Pqubit.z q + 1))).
  { intros Hz'. unfold Pqubit.conn_external, Pqubit.new, Pqubit.__init__.
    rewrite (proj2 (check_None_iff _ _ _ _ _)); [reflexivity |].
    unfold in_range. lia. }
  assert (Hout : forall d, ~ 0 <= Pqubit.z q + d <= Pqubit.m q - 2 ->
                 Pqubit.conn_external q d None
                 = Raise (ValueError
                            (violation_message (Pqubit.m q) (Pqubit.u q)
                               (Pqubit.w q) (Pqubit.k q) (Pqubit.z q + d)
                               ParallelOffset))).
  { intros d Hz'. apply new_out_of_range_strict; auto. }
  split; [exact Hin |]. split; [apply Hout |].
  split.
  - intros [q' E].
    destruct (Z.lt_ge_cases (Pqubit.z q) (Pqubit.m q - 2)); [assumption |].
    rewrite (Hout 1) in E by lia. discriminate.
  - intros Hlt. eexists. apply Hin1. lia.
Qed.

Lemma conn_external_strict_bounds_witness :
  valid_address (Pqubit.mk true None 4 0 1 5 1)
  /\ Pqubit.conn_external (Pqubit.mk true None 4 0 1 5 1) 1 None
     = Ok (Pqubit.mk true None 4 0 1 5 (1 + 1)).
Proof.
  assert (Hv : valid_address (Pqubit.mk true None 4 0 1 5 1))
    by (apply valid_address_intro; [unfold in_range; lia | now left]).
  split; [exact Hv |].
  apply (proj1 (conn_external_strict_bounds _ 1 Hv)). cbn. lia.
Defined.

(** X6.  External steps add up: stepping by [a] and then by [b] is
    stepping by [a + b], and on a valid address stepping back by [-a]
    returns an address equal to the first one. *)
Theorem conn_external_compose (q q1 : Pqubit.t) (a : Z) (kw : kwargs)
  (H : Pqubit.conn_external q a kw = Ok q1) :
  (forall b kw',
      Pqubit.conn_external q1 b kw' = Pqubit.conn_external q (a + b) kw')
  /\ (valid_address q ->
      forall kw', exists q2,
        Pqubit.conn_external q1 (- a) kw' = Ok q2
        /\ Pqubit.__eq__ q2 q = true /\ valid_address q2).
Proof.
  destruct (new_ok_fields _ _ _ _ _ _ _ H) as (Fm & Fu & Fw & Fk & Fz).
  assert (Hc : forall b kw',
             Pqubit.conn_external q1 b kw'
             = Pqubit.conn_external q (a + b) kw').
  { intros b kw'. unfold Pqubit.conn_external.
    rewrite Fm, Fu, Fw, Fk, Fz, Z.add_assoc. reflexivity. }
  split; [exact Hc |].
  intros Hq kw'. rewrite Hc.
  destruct (new_in_range (Pqubit.m q) (Pqubit.u q) (Pqubit.w q) (Pqubit.k q)
              (Pqubit.z q) kw' (valid_address_inv q Hq))
    as (q2 & N2 & V2 & F2).
  exists q2. unfold Pqubit.conn_external.
  replace (Pqubit.z q + (a + - a)) with (Pqubit.z q) by lia.
  split; [exact N2 |]. split; [apply eq_true_fields; exact F2 | exact V2].
Qed.

Lemma conn_external_compose_witness :
  Pqubit.conn_external (Pqubit.mk true None 4 0 1 5 0) 2 None
  = Ok (Pqubit.mk true None 4 0 1 5 2)
  /\ forall b kw',
      Pqubit.conn_external (Pqubit.mk true None 4 0 1 5 2) b kw'
      = Pqubit.conn_external (Pqubit.mk true None 4 0 1 5 0) (2 + b) kw'.
Proof.
  split; [reflexivity |].
  exact (proj1 (conn_external_compose (Pqubit.mk true None 4 0 1 5 0)
                  (Pqubit.mk true None 4 0 1 5 2) 2 None eq_refl)).
Defined.

(** ** Couplers and the linear index *)

Lemma to_linear_of_fields (q : Pqubit.t) :
  Pqubit._valid_coord q = true ->
  Pqubit.to_linear q
  = Ok (Pqubit.z q
        + (Pqubit.m q - 1)
          * (Pqubit.k q + 12 * (Pqubit.w q + Pqubit.m q * Pqubit.u q))).
Proof. intros Hv. unfold Pqubit.to_linear. rewrite Hv. reflexivity. Qed.

(** X7.  The external neighbour at distance [dz] has the linear index of
    the address plus [dz]: the sites of one chain are numbered
    consecutively. *)
Theorem to_linear_conn_external (q q1 : Pqubit.t) (dz n : Z) (kw : kwargs)
  (Hq : valid_address q)
  (H1 : Pqubit.conn_external q dz kw = Ok q1)
  (Hv : Pqubit._valid_coord q1 = true)
  (Hn : Pqubit.to_linear q = Ok n) :
  Pqubit.to_linear q1 = Ok (n + dz).
Proof.
  destruct (new_ok_fields _ _ _ _ _ _ _ H1) as (Fm & Fu & Fw & Fk & Fz).
  rewrite (to_linear_of_fields q (proj2 Hq)) in Hn. apply Ok_inj in Hn.
  rewrite (to_linear_of_fields q1 Hv), Fm, Fu, Fw, Fk, Fz.
  f_equal. lia.
Qed.

Lemma to_linear_conn_external_witness :
  valid_address (Pqubit.mk true None 3 1 2 7 0)
  /\ Pqubit.conn_external (Pqubit.mk true None 3 1 2 7 0) 1 None
     = Ok (Pqubit.mk true None 3 1 2 7 1)
  /\ Pqubit.to_linear (Pqubit.mk true None 3 1 2 7 0) = Ok 134
  /\ Pqubit.to_linear (Pqubit.mk true None 3 1 2 7 1) = Ok (134 + 1).
Proof.
  assert (Hv : valid_address (Pqubit.mk true None 3 1 2 7 0))
    by (apply valid_address_intro; [unfold in_range; lia | now left]).
  split; [exact Hv |]. split; [reflexivity |]. split; [reflexivity |].
  exact (to_linear_conn_external _ (Pqubit.mk true None 3 1 2 7 1) 1 134 None
           Hv eq_refl eq_refl eq_refl).
Defined.

(** X8.  The odd partner of a valid address lies [m - 1] linear indices
    above it when the slot is even and [m - 1] below when it is odd. *)
Theorem to_linear_conn_odd (q q1 : Pqubit.t) (n : Z) (kw : kwargs)
  (Hq : valid_address q)
  (H1 : Pqubit.conn_odd q kw = Ok q1)
  (Hn : Pqubit.to_linear q = Ok n) :
  Pqubit.to_linear q1
  = Ok (if Z.even (Pqubit.k q) then n + (Pqubit.m q - 1)
        else n - (Pqubit.m q - 1)).
Proof.
  destruct (valid_address_inv q Hq) as (Hm & Hu & Hw & Hk & Hz).
  unfold Pqubit.conn_odd in H1.
  destruct (new_ok_fields _ _ _ _ _ _ _ H1) as (Fm & Fu & Fw & Fk & Fz).
  assert (Hv1 : Pqubit._valid_coord q1 = true).
  { apply (new_ok_valid_iff _ _ _ _ _ _ _ H1). unfold in_range.
    repeat split; try lia.
    all: destruct (Z.eqb_spec (Pqubit.k q mod 2) 0);
      Z.div_mod_to_equations; lia. }
  rewrite (to_linear_of_fields q (proj2 Hq)) in Hn. apply Ok_inj in Hn.
  rewrite (to_linear_of_fields q1 Hv1), Fm, Fu, Fw, Fk, Fz.
  f_equal.
  destruct (Z.eqb_spec (Pqubit.k q mod 2) 0) as [E | E].
  - replace (Z.even (Pqubit.k q)) with true; [lia |].
    symmetry. apply Z.even_spec. apply Z.mod_divide in E; [| lia].
    destruct E as [c Ec]. exists c. lia.
  - replace (Z.even (Pqubit.k q)) with false; [lia |].
    symmetry. apply Bool.not_true_is_false. intros Hev.
    apply Z.even_spec in Hev. destruct Hev as [c Ec]. apply E.
    rewrite Ec, Z.mul_comm. apply Z_mod_mult.
Qed.

Lemma to_linear_conn_odd_witness :
  valid_address (Pqubit.mk true None 3 1 2 7 0)
  /\ Pqubit.conn_odd (Pqubit.mk true None 3 1 2 7 0) None
     = Ok (Pqubit.mk true None 3 1 2 6 0)
  /\ Pqubit.to_linear (Pqubit.mk true None 3 1 2 7 0) = Ok 134
  /\ Pqubit.to_linear (Pqubit.mk true None 3 1 2 6 0)
     = Ok (if Z.even 7 then 134 + (3 - 1) else 134 - (3 - 1)).
Proof.
  assert (Hv : valid_address (Pqubit.mk true None 3 1 2 7 0))
    by (apply valid_address_intro; [unfold in_range; lia | now left]).
  split; [exact Hv |]. split; [reflexivity |]. split; [reflexivity |].
  exact (to_linear_conn_odd _ (Pqubit.mk true None 3 1 2 6 0) 134 None
           Hv eq_refl eq_refl).
Defined.

(** ** The internal couplers *)

Lemma internal_coupling_slot (u w k z j a b c : Z) :
  internal_coupling u w k z j = Ok (a, b, c) -> b = j.
Proof.
  unfold internal_coupling.
  destruct (u =? 0);
    repeat match goal with
      | |- bind (getitem ?l ?i) _ = _ -> _ =>
          destruct (getitem l i); cbn [bind]; [| discriminate]
      end;
    intros E; apply Ok_inj in E; congruence.
Qed.

Lemma triple_inj {A B C : Type} (a a' : A) (b b' : B) (c c' : C) :
  (a, b, c) = (a', b', c') -> a = a' /\ b = b' /\ c = c'.
Proof. intros E. repeat split; congruence. Qed.

Lemma internal_coupling_back (u w k z j w2 k2 z2 : Z) :
  u = 0 \/ u = 1 -> 0 <= k <= 11 -> 0 <= j <= 11 ->
  internal_coupling u w k z j = Ok (w2, k2, z2) ->
  k2 = j /\ internal_coupling (1 - u) w2 k2 z2 k = Ok (w, k, z).
Proof.
  intros Hu Hk Hj E.
  rewrite (internal_coupling_in_range u w k z j Hk Hj) in E.
  apply Ok_inj in E.
  destruct Hu as [-> | ->].
  - change (0 =? 0) with true in E. cbv iota in E.
    apply triple_inj in E. destruct E as (<- & <- & <-).
    split; [reflexivity |].
    change (1 - 0) with 1.
    rewrite (internal_coupling_in_range _ _ _ _ _ Hj Hk).
    change (1 =? 0) with false. cbv iota.
    apply f_equal, triple_eq; lia.
  - change (1 =? 0) with false in E. cbv iota in E.
    apply triple_inj in E. destruct E as (<- & <- & <-).
    split; [reflexivity |].
    change (1 - 1) with 0.
    rewrite (internal_coupling_in_range _ _ _ _ _ Hj Hk).
    change (0 =? 0) with true. cbv iota.
    apply f_equal, triple_eq; lia.
Qed.

Lemma conn_internal_as_abs (q : Pqubit.t) (dk : Z) :
  Pqubit.conn_internal q dk
  = Pqubit.conn_internal_abs q ((cluster_slot q + dk) mod 12) None.
Proof.
  unfold Pqubit.conn_internal, Pqubit.conn_internal_abs, cluster_slot.
  destruct (if Pqubit.is_vert_coord q then _ else _) as [[w2 k02] z2].
  reflexivity.
Qed.

Lemma cluster_slot_range (q : Pqubit.t) :
  0 <= Pqubit.k q <= 11 ->
  cluster_slot q = 0 \/ cluster_slot q = 4 \/ cluster_slot q = 8.
Proof.
  intros Hk. unfold cluster_slot.
  rewrite (vert2horz_cases _ _ Hk), (horz2vert_cases _ _ Hk).
  destruct (Pqubit.is_vert_coord q), (Pqubit.k q <? 4), (Pqubit.k q <? 8);
    auto.
Qed.

Lemma conn_internal_abs_back (q q1 : Pqubit.t) (j : Z) (kw kw' : kwargs) :
  valid_address q -> 0 <= j <= 11 ->
  Pqubit.conn_internal_abs q j kw = Ok q1 ->
  Pqubit.u q1 = 1 - Pqubit.u q /\ Pqubit.k q1 = j
  /\ exists q2,
      Pqubit.conn_internal_abs q1 (Pqubit.k q) kw' = Ok q2
      /\ Pqubit.__eq__ q2 q = true /\ valid_address q2.
Proof.
  intros Hq Hj E.
  pose proof (valid_address_inv q Hq) as Hr.
  destruct Hr as (Hm & Hu & Hw & Hk & Hz).
  unfold Pqubit.conn_internal_abs in E.
  destruct (internal_coupling _ _ _ _ _) as [[[w2 k2] z2] | e] eqn:Ec;
    cbn [bind] in E; [| discriminate].
  destruct (internal_coupling_back _ _ _ _ _ _ _ _ Hu Hk Hj Ec) as [-> Eb].
  destruct (new_ok_fields _ _ _ _ _ _ _ E) as (Fm & Fu & Fw & Fk & Fz).
  split; [exact Fu |]. split; [exact Fk |].
  destruct (new_in_range (Pqubit.m q) (Pqubit.u q) (Pqubit.w q) (Pqubit.k q)
              (Pqubit.z q) kw' (valid_address_inv q Hq))
    as (q2 & N2 & V2 & F2).
  exists q2. unfold Pqubit.conn_internal_abs.
  rewrite Fm, Fu, Fw, Fk, Fz, Eb. cbn [bind].
  replace (1 - (1 - Pqubit.u q)) with (Pqubit.u q) by lia.
  split; [exact N2 |]. split; [apply eq_true_fields; exact F2 | exact V2].
Qed.

(** X9.  Internal couplings are reciprocal: when [conn_internal_abs] leads
    from a valid address with slot [k] to an address [q1] with slot [j],
    then [q1] has the opposite orientation and [conn_internal_abs] with
    target slot [k] leads from [q1] back to an address equal to the first
    one. *)
Theorem conn_internal_abs_reciprocal
  (q q1 : Pqubit.t) (j : Z) (kw kw' : kwargs)
  (Hq : valid_address q) (Hj : 0 <= j <= 11)
  (H1 : Pqubit.conn_internal_abs q j kw = Ok q1) :
  Pqubit.u q1 = 1 - Pqubit.u q /\ Pqubit.k q1 = j
  /\ exists q2,
      Pqubit.conn_internal_abs q1 (Pqubit.k q) kw' = Ok q2
      /\ Pqubit.__eq__ q2 q = true /\ valid_address q2.
Proof. exact (conn_internal_abs_back q q1 j kw kw' Hq Hj H1). Qed.

Lemma conn_internal_abs_reciprocal_witness :
  valid_address (Pqubit.mk true None 3 0 0 2 1)
  /\ 0 <= 4 <= 11
  /\ Pqubit.conn_internal_abs (Pqubit.mk true None 3 0 0 2 1) 4 None
     = Ok (Pqubit.mk true None 3 1 1 4 0)
  /\ exists q2,
      Pqubit.conn_internal_abs (Pqubit.mk true None 3 1 1 4 0) 2 None = Ok q2
      /\ Pqubit.__eq__ q2 (Pqubit.mk true None 3 0 0 2 1) = true
      /\ valid_address q2.
Proof.
  assert (Hv : valid_address (Pqubit.mk true None 3 0 0 2 1))
    by (apply valid_address_intro; [unfold in_range; lia | now left]).
  split; [exact Hv |]. split; [lia |]. split; [reflexivity |].
  exact (proj2 (proj2 (conn_internal_abs_reciprocal
                         (Pqubit.mk true None 3 0 0 2 1)
                         (Pqubit.mk true None 3 1 1 4 0) 4 None None
                         Hv ltac:(lia) eq_refl))).
Defined.

(** X10.  Every step of [conn_internal] from a valid address can be walked
    back with [conn_internal]: there is an offset in the documented range
    [-6, 5] that leads from the neighbour to an address equal to the
    first one. *)
Theorem conn_internal_walk_back (q q1 : Pqubit.t) (dk : Z)
  (Hq : valid_address q) (H1 : Pqubit.conn_internal q dk = Ok q1) :
  exists dk' q2,
    -6 <= dk' <= 5 /\ Pqubit.conn_internal q1 dk' = Ok q2
    /\ Pqubit.__eq__ q2 q = true.
Proof.
  destruct (valid_address_inv q Hq) as (_ & _ & _ & Hk & _).
  rewrite conn_internal_as_abs in H1.
  pose proof (Z.mod_pos_bound (cluster_slot q + dk) 12 ltac:(lia)) as Hj.
  assert (Hj' : 0 <= (cluster_slot q + dk) mod 12 <= 11) by lia.
  destruct (conn_internal_abs_back q q1 _ None None Hq Hj' H1)
    as (Fu & Fk & q2 & E2 & Heq & _).
  assert (Hk1 : 0 <= Pqubit.k q1 <= 11) by lia.
  pose proof (cluster_slot_range q1 Hk1) as Hc.
  exists ((Pqubit.k q - cluster_slot q1 + 6) mod 12 - 6), q2.
  pose proof (Z.mod_pos_bound (Pqubit.k q - cluster_slot q1 + 6) 12
                ltac:(lia)) as Hd.
  split; [lia |]. split; [| exact Heq].
  rewrite conn_internal_as_abs.
  replace ((cluster_slot q1
            + ((Pqubit.k q - cluster_slot q1 + 6) mod 12 - 6)) mod 12)
    with (Pqubit.k q); [exact E2 |].
  Z.div_mod_to_equations. lia.
Qed.

Lemma conn_internal_walk_back_witness :
  valid_address (Pqubit.mk true None 3 0 0 2 1)
  /\ Pqubit.conn_internal (Pqubit.mk true None 3 0 0 2 1) (-4)
     = Ok (Pqubit.mk true None 3 1 1 4 0)
  /\ exists dk' q2,
      -6 <= dk' <= 5
      /\ Pqubit.conn_internal (Pqubit.mk true None 3 1 1 4 0) dk' = Ok q2
      /\ Pqubit.__eq__ q2 (Pqubit.mk true None 3 0 0 2 1) = true.
Proof.
  assert (Hv : valid_address (Pqubit.mk true None 3 0 0 2 1))
    by (apply valid_address_intro; [unfold in_range; lia | now left]).
  split; [exact Hv |]. split; [reflexivity |].
  exact (conn_internal_walk_back (Pqubit.mk true None 3 0 0 2 1)
           (Pqubit.mk true None 3 1 1 4 0) (-4) Hv eq_refl).
Defined.

Lemma conn_internal_abs_fields (q q1 : Pqubit.t) (j : Z) (kw : kwargs) :
  Pqubit.conn_internal_abs q j kw = Ok q1 ->
  Pqubit.m q1 = Pqubit.m q /\ Pqubit.u q1 = 1 - Pqubit.u q
  /\ Pqubit.k q1 = j.
Proof.
  unfold Pqubit.conn_internal_abs.
  destruct (internal_coupling _ _ _ _ _) as [[[w2 k2] z2] | e] eqn:Ec;
    cbn [bind]; [| discriminate].
  intros E. apply internal_coupling_slot in Ec. subst k2.
  destruct (new_ok_fields _ _ _ _ _ _ _ E) as (Fm & Fu & _ & Fk & _).
  auto.
Qed.

(** X11.  [conn_internal] only depends on [dk] modulo 12: an offset
    outside the documented range [-6, 5] is not rejected, it behaves as
    the offset of the range it is congruent to. *)
Theorem conn_internal_period_12 (q : Pqubit.t) (dk n : Z) :
  Pqubit.conn_internal q (dk + 12 * n) = Pqubit.conn_internal q dk
  /\ Pqubit.conn_internal q dk
     = Pqubit.conn_internal q ((dk + 6) mod 12 - 6)
  /\ -6 <= (dk + 6) mod 12 - 6 <= 5.
Proof.
  rewrite !conn_internal_as_abs.
  pose proof (Z.mod_pos_bound (dk + 6) 12 ltac:(lia)) as Hb.
  split; [| split; [| lia]]; f_equal; Z.div_mod_to_equations; lia.
Qed.

(** X12.  Two offsets of [conn_internal] that lead from the same object to
    equal addresses are congruent modulo 12; within the documented range
    [-6, 5] the twelve offsets therefore give pairwise different
    neighbours. *)
Theorem conn_internal_offsets_distinct
  (q a b : Pqubit.t) (dk1 dk2 : Z)
  (Ha : Pqubit.conn_internal q dk1 = Ok a)
  (Hb : Pqubit.conn_internal q dk2 = Ok b)
  (Hab : Pqubit.__eq__ a b = true) :
  dk1 mod 12 = dk2 mod 12
  /\ (-6 <= dk1 <= 5 -> -6 <= dk2 <= 5 -> dk1 = dk2).
Proof.
  rewrite conn_internal_as_abs in Ha, Hb.
  apply conn_internal_abs_fields in Ha, Hb.
  destruct Ha as (_ & _ & Ka), Hb as (_ & _ & Kb).
  apply eq_true_fields in Hab. unfold fields in Hab.
  assert (E : Pqubit.k a = Pqubit.k b) by congruence.
  rewrite Ka, Kb in E. clear - E.
  split; [| intros H1 H2]; Z.div_mod_to_equations; lia.
Qed.

Lemma conn_internal_offsets_distinct_witness :
  Pqubit.conn_internal (Pqubit.mk true None 3 0 0 2 1) (-4)
  = Ok (Pqubit.mk true None 3 1 1 4 0)
  /\ Pqubit.conn_internal (Pqubit.mk true None 3 0 0 2 1) 8
     = Ok (Pqubit.mk true None 3 1 1 4 0)
  /\ (-4) mod 12 = 8 mod 12.
Proof.
  split; [reflexivity |]. split; [reflexivity |].
  exact (proj1 (conn_internal_offsets_distinct
                  (Pqubit.mk true None 3 0 0 2 1)
                  (Pqubit.mk true None 3 1 1 4 0)
                  (Pqubit.mk true None 3 1 1 4 0) (-4) 8
                  eq_refl eq_refl eq_refl)).
Defined.

Lemma internal_coupling_shifts (u w k z j : Z) :
  0 <= k <= 11 -> 0 <= j <= 11 ->
  exists d d',
    0 <= d <= 1 /\ 0 <= d' <= 1
    /\ internal_coupling u w k z j = Ok (z + d, j, w - d').
Proof.
  intros Hk Hj. rewrite (internal_coupling_in_range u w k z j Hk Hj).
  destruct (u =? 0); eexists; eexists;
    (split; [| split; [| reflexivity]]);
    match goal with |- _ <= (if ?b then 1 else 0) <= _ => destruct b end;
    lia.
Qed.

(** X13.  A valid address whose perpendicular offset is not on the border,
    [1 <= w <= m - 2], has all its internal neighbours: [conn_internal]
    succeeds for every offset, and [conn_internal_abs] for every target
    slot in [0, 11], with a valid address of the opposite orientation. *)
Theorem conn_internal_interior (q : Pqubit.t)
  (Hq : valid_address q) (Hw : 1 <= Pqubit.w q <= Pqubit.m q - 2) :
  (forall j kw, 0 <= j <= 11 ->
     exists q1, Pqubit.conn_internal_abs q j kw = Ok q1
                /\ valid_address q1 /\ Pqubit.u q1 = 1 - Pqubit.u q
                /\ Pqubit.k q1 = j)
  /\ (forall dk,
        exists q1, Pqubit.conn_internal q dk = Ok q1
                   /\ valid_address q1 /\ Pqubit.u q1 = 1 - Pqubit.u q
                   /\ Pqubit.k q1 = (cluster_slot q + dk) mod 12).
Proof.
  destruct (valid_address_inv q Hq) as (Hm & Hu & _ & Hk & Hz).
  assert (Habs : forall j kw, 0 <= j <= 11 ->
            exists q1, Pqubit.conn_internal_abs q j kw = Ok q1
                       /\ valid_address q1 /\ Pqubit.u q1 = 1 - Pqubit.u q
                       /\ Pqubit.k q1 = j).
  { intros j kw Hj.
    destruct (internal_coupling_shifts (Pqubit.u q) (Pqubit.w q) (Pqubit.k q)
                (Pqubit.z q) j Hk Hj) as (d & d' & Hd & Hd' & Ec).
    destruct (new_in_range (Pqubit.m q) (1 - Pqubit.u q) (Pqubit.z q + d) j
                (Pqubit.w q - d') kw) as (q1 & N1 & V1 & F1).
    { unfold in_range. lia. }
    exists q1. unfold Pqubit.conn_internal_abs. rewrite Ec. cbn [bind].
    split; [exact N1 |]. split; [exact V1 |].
    destruct (new_ok_fields _ _ _ _ _ _ _ N1) as (_ & Fu & _ & Fk & _).
    auto. }
  split; [exact Habs |].
  intros dk. rewrite conn_internal_as_abs. apply Habs.
  pose proof (Z.mod_pos_bound (cluster_slot q + dk) 12 ltac:(lia)). lia.
Qed.

Lemma conn_internal_interior_witness :
  valid_address (Pqubit.mk true None 4 0 1 5 2)
  /\ 1 <= 1 <= 4 - 2
  /\ forall dk,
      exists q1,
        Pqubit.conn_internal (Pqubit.mk true None 4 0 1 5 2) dk = Ok q1
        /\ valid_address q1 /\ Pqubit.u q1 = 1 - 0
        /\ Pqubit.k q1
           = (cluster_slot (Pqubit.mk true None 4 0 1 5 2) + dk) mod 12.
Proof.
  assert (Hv : valid_address (Pqubit.mk true None 4 0 1 5 2))
    by (apply valid_address_intro; [unfold in_range; lia | now left]).
  split; [exact Hv |]. split; [lia |].
  exact (proj2 (conn_internal_interior (Pqubit.mk true None 4 0 1 5 2) Hv
                  ltac:(cbn; lia))).
Defined.

Lemma eq_false_of_field (a b : Pqubit.t) :
  Pqubit.u a <> Pqubit.u b \/ Pqubit.k a <> Pqubit.k b
  \/ Pqubit.z a <> Pqubit.z b ->
  Pqubit.__eq__ a b = false.
Proof.
  intros H. apply Bool.not_true_is_false. intros E.
  apply eq_true_fields in E. unfold fields in E.
  injection E as _ Eu _ Ek Ez. tauto.
Qed.

(** X14.  No coupler returns the address it was called on: the odd and the
    internal couplers always return an address different from their input,
    and the external coupler returns an equal address only for [dz = 0]. *)
Theorem couplers_have_no_self_loop
  (q q1 : Pqubit.t) (dz dk j : Z) (kw : kwargs) :
  (Pqubit.conn_odd q kw = Ok q1 -> Pqubit.__eq__ q1 q = false)
  /\ (Pqubit.conn_external q dz kw = Ok q1 ->
      (Pqubit.__eq__ q1 q = true <-> dz = 0))
  /\ (Pqubit.conn_k44 q dk kw = Ok q1 -> Pqubit.__eq__ q1 q = false)
  /\ (Pqubit.conn_internal q dk = Ok q1 -> Pqubit.__eq__ q1 q = false)
  /\ (Pqubit.conn_internal_abs q j kw = Ok q1 ->
      Pqubit.__eq__ q1 q = false).
Proof.
  split.
  { intros E. unfold Pqubit.conn_odd in E.
    destruct (new_ok_fields _ _ _ _ _ _ _ E) as (_ & _ & _ & Fk & _).
    apply eq_false_of_field. right; left. rewrite Fk.
    destruct (_ =? 0); lia. }
  split.
  { intros E. unfold Pqubit.conn_external in E.
    destruct (new_ok_fields _ _ _ _ _ _ _ E) as (Fm & Fu & Fw & Fk & Fz).
    rewrite eq_true_fields. unfold fields. rewrite Fm, Fu, Fw, Fk, Fz.
    split.
    - intros H. apply (f_equal snd) in H. cbn [snd] in H. lia.
    - intros ->. rewrite Z.add_0_r. reflexivity. }
  split.
  { intros E. unfold Pqubit.conn_k44 in E.
    destruct (if Pqubit.is_vert_coord q then _ else _) as [[w2 k02] z2].
    destruct (new_ok_fields _ _ _ _ _ _ _ E) as (_ & Fu & _).
    apply eq_false_of_field. left. lia. }
  split.
  { intros E. rewrite conn_internal_as_abs in E.
    apply conn_internal_abs_fields in E. destruct E as (_ & Fu & _).
    apply eq_false_of_field. left. lia. }
  intros E. apply conn_internal_abs_fields in E. destruct E as (_ & Fu & _).
  apply eq_false_of_field. left. lia.
Qed.

Lemma couplers_have_no_self_loop_witness :
  Pqubit.conn_odd (Pqubit.mk true None 3 0 0 7 0) None
  = Ok (Pqubit.mk true None 3 0 0 6 0)
  /\ Pqubit.__eq__ (Pqubit.mk true None 3 0 0 6 0)
       (Pqubit.mk true None 3 0 0 7 0) = false.
Proof.
  split; [reflexivity |].
  exact (proj1 (couplers_have_no_self_loop (Pqubit.mk true None 3 0 0 7 0)
                  (Pqubit.mk true None 3 0 0 6 0) 0 0 0 None) eq_refl).
Defined.

(** X15.  The two slots of an odd pair have their internal neighbours in
    the same tiles: for slots in [0, 11], replacing the source slot [k] or
    the target slot [j] by its odd partner leaves both tile offsets
    returned by [internal_coupling] unchanged. *)
Theorem internal_coupling_respects_pairs (u w k z j : Z)
  (Hk : 0 <= k <= 11) (Hj : 0 <= j <= 11) :
  exists w2 z2,
    internal_coupling u w k z j = Ok (w2, j, z2)
    /\ internal_coupling u w (odd_slot k) z j = Ok (w2, j, z2)
    /\ internal_coupling u w k z (odd_slot j) = Ok (w2, odd_slot j, z2).
Proof.
  unfold internal_coupling.
  destruct (u =? 0); enum_range k 0 11; enum_range j 0 11;
    eexists; eexists; repeat split; reflexivity.
Qed.

Lemma internal_coupling_respects_pairs_witness :
  0 <= 2 <= 11 /\ 0 <= 4 <= 11
  /\ exists w2 z2,
      internal_coupling 0 0 2 1 4 = Ok (w2, 4, z2)
      /\ internal_coupling 0 0 (odd_slot 2) 1 4 = Ok (w2, 4, z2)
      /\ internal_coupling 0 0 2 1 (odd_slot 4) = Ok (w2, odd_slot 4, z2).
Proof.
  split; [lia |]. split; [lia |].
  exact (internal_coupling_respects_pairs 0 0 2 1 4 ltac:(lia) ltac:(lia)).
Defined.

(** X16.  On a valid address and for [dk] in [0, 3], [conn_k44] and
    [conn_internal] build addresses with the same size, orientation, slot
    and parallel offset, and with perpendicular offsets that differ by the
    parallel offset [z] of the input: they return the same result when
    [z = 0], and when both return an address the two are equal only if
    [z = 0]. *)
Theorem conn_k44_agrees_iff_z0 (q : Pqubit.t) (dk : Z)
  (Hq : valid_address q) (Hdk : 0 <= dk <= 3) :
  (Pqubit.z q = 0 -> Pqubit.conn_k44 q dk None = Pqubit.conn_internal q dk)
  /\ (forall a b,
         Pqubit.conn_k44 q dk None = Ok a ->
         Pqubit.conn_internal q dk = Ok b ->
         Pqubit.m b = Pqubit.m a /\ Pqubit.u b = Pqubit.u a
         /\ Pqubit.k b = Pqubit.k a /\ Pqubit.z b = Pqubit.z a
         /\ Pqubit.w b = Pqubit.w a + Pqubit.z q
         /\ (Pqubit.__eq__ a b = true <-> Pqubit.z q = 0)).
Proof.
  destruct (conn_k44_vs_conn_internal q dk Hq Hdk) as (w2 & k2 & z2 & E1 & E2).
  split.
  - intros Hz. rewrite E1, E2, Hz. reflexivity.
  - intros a b Ea Eb. rewrite E1 in Ea. rewrite E2 in Eb.
    destruct (new_ok_fields _ _ _ _ _ _ _ Ea) as (Am & Au & Aw & Ak & Az).
    destruct (new_ok_fields _ _ _ _ _ _ _ Eb) as (Bm & Bu & Bw & Bk & Bz).
    repeat (split; [congruence || lia |]).
    rewrite eq_true_fields. unfold fields.
    rewrite Am, Au, Aw, Ak, Az, Bm, Bu, Bw, Bk, Bz. split.
    + intros H. apply triple_inj in H.
      destruct H as (H & _ & _). apply (f_equal snd) in H. cbn [snd] in H.
      lia.
    + intros ->. rewrite Z.add_0_l. reflexivity.
Qed.

Lemma conn_k44_agrees_iff_z0_witness :
  valid_address (Pqubit.mk true None 3 0 1 4 0)
  /\ 0 <= 2 <= 3
  /\ Pqubit.conn_k44 (Pqubit.mk true None 3 0 1 4 0) 2 None
     = Pqubit.conn_internal (Pqubit.mk true None 3 0 1 4 0) 2
  /\ Pqubit.conn_internal (Pqubit.mk true None 3 0 1 4 0) 2
     = Ok (Pqubit.mk true None 3 1 1 6 1).
Proof.
  assert (Hv : valid_address (Pqubit.mk true None 3 0 1 4 0))
    by (apply valid_address_intro; [unfold in_range; lia | now left]).
  split; [exact Hv |]. split; [lia |].
  split; [| reflexivity].
  exact (proj1 (conn_k44_agrees_iff_z0 (Pqubit.mk true None 3 0 1 4 0) 2 Hv
                  ltac:(lia)) eq_refl).
Defined.

(** ** Construction, ranges and the border of the lattice *)

(** X17.  Strict construction succeeds exactly on the documented ranges
    [m >= 1], [u] in {0, 1}, [0 <= w <= m-1], [0 <= k <= 11],
    [0 <= z <= m-2]; the address it returns keeps the five arguments, is
    never collapsed by [none_if_invalid], and always has a linear index,
    which lies in [0, 24*m*(m-1)). *)
Theorem strict_construction_iff_in_range (m u w k z : Z) :
  ((exists q, Pqubit.__init__ m u w k z true = Ok q) <-> in_range m u w k z)
  /\ (forall q,
         Pqubit.__init__ m u w k z true = Ok q ->
         fields q = (m, u, w, k, z)
         /\ Pqubit.none_if_invalid q = Some q
         /\ exists n, Pqubit.to_linear q = Ok n
                      /\ 0 <= n < 24 * m * (m - 1)).
Proof.
  split.
  - rewrite <- check_None_iff. unfold Pqubit.__init__.
    destruct (Pqubit._check_if_not_valid m u w k z); split.
    + intros [q E]. discriminate.
    + discriminate.
    + reflexivity.
    + eauto.
  - intros q E.
    assert (Hv : valid_address q)
      by (apply (new_strict_valid m u w k z None q eq_refl E)).
    destruct (new_ok_fields m u w k z None q E) as (Fm & Fu & Fw & Fk & Fz).
    split; [unfold fields; congruence |].
    split; [unfold Pqubit.none_if_invalid; rewrite (proj2 Hv); reflexivity |].
    eexists. split; [apply to_linear_valid, Hv |].
    rewrite <- Fm. apply (to_linear_bounds q _ Hv), to_linear_valid, Hv.
Qed.

Lemma strict_construction_iff_in_range_witness :
  Pqubit.__init__ 3 1 2 11 1 true = Ok (Pqubit.mk true None 3 1 2 11 1)
  /\ exists n, Pqubit.to_linear (Pqubit.mk true None 3 1 2 11 1) = Ok n
               /\ 0 <= n < 24 * 3 * (3 - 1).
Proof.
  split; [reflexivity |].
  exact (proj2 (proj2 (proj2 (strict_construction_iff_in_range 3 1 2 11 1)
                         (Pqubit.mk true None 3 1 2 11 1) eq_refl))).
Defined.

(** X18.  From a valid address, [conn_internal_abs] towards a slot in
    [0, 11] can only fail at the border of the lattice: the neighbour has
    perpendicular offset [z + d] and parallel offset [w - d'] with
    corrections [d], [d'] in {0, 1}; the call succeeds exactly when
    [0 <= w - d' <= m - 2] and otherwise raises the violation of the
    neighbour's parallel offset. *)
Theorem conn_internal_abs_border (q : Pqubit.t) (j : Z)
  (Hq : valid_address q) (Hj : 0 <= j <= 11) :
  exists d d',
    0 <= d <= 1 /\ 0 <= d' <= 1
    /\ internal_coupling (Pqubit.u q) (Pqubit.w q) (Pqubit.k q) (Pqubit.z q) j
       = Ok (Pqubit.z q + d, j, Pqubit.w q - d')
    /\ (0 <= Pqubit.w q - d' <= Pqubit.m q - 2 ->
        Pqubit.conn_internal_abs q j None
        = Ok (Pqubit.mk true None (Pqubit.m q) (1 - Pqubit.u q)
                (Pqubit.z q + d) j (Pqubit.w q - d')))
    /\ (~ 0 <= Pqubit.w q - d' <= Pqubit.m q - 2 ->
        Pqubit.conn_internal_abs q j None
        = Raise (ValueError
                   (violation_message (Pqubit.m q) (1 - Pqubit.u q)
                      (Pqubit.z q + d) j (Pqubit.w q - d') ParallelOffset))).
Proof.
  destruct (valid_address_inv q Hq) as (Hm & Hu & Hw & Hk & Hz).
  destruct (internal_coupling_shifts (Pqubit.u q) (Pqubit.w q) (Pqubit.k q)
              (Pqubit.z q) j Hk Hj) as (d & d' & Hd & Hd' & Ec).
  exists d, d'. split; [exact Hd |]. split; [exact Hd' |].
  split; [exact Ec |].
  unfold Pqubit.conn_internal_abs. rewrite Ec. cbn [bind]. split.
  - intros Hin. unfold Pqubit.new, Pqubit.__init__.
    rewrite (proj2 (check_None_iff _ _ _ _ _)); [reflexivity |].
    unfold in_range. lia.
  - intros Hout. apply new_out_of_range_strict; try reflexivity; lia.
Qed.

Lemma conn_internal_abs_border_witness :
  valid_address (Pqubit.mk true None 3 0 0 0 0)
  /\ 0 <= 8 <= 11
  /\ exists d d',
      0 <= d <= 1 /\ 0 <= d' <= 1
      /\ internal_coupling 0 0 0 0 8 = Ok (0 + d, 8, 0 - d')
      /\ (0 <= 0 - d' <= 3 - 2 ->
          Pqubit.conn_internal_abs (Pqubit.mk true None 3 0 0 0 0) 8 None
          = Ok (Pqubit.mk true None 3 (1 - 0) (0 + d) 8 (0 - d')))
      /\ (~ 0 <= 0 - d' <= 3 - 2 ->
          Pqubit.conn_internal_abs (Pqubit.mk true None 3 0 0 0 0) 8 None
          = Raise (ValueError
                     (violation_message 3 (1 - 0) (0 + d) 8 (0 - d')
                        ParallelOffset))).
Proof.
  assert (Hv : valid_address (Pqubit.mk true None 3 0 0 0 0))
    by (apply valid_address_intro; [unfold in_range; lia | now left]).
  split; [exact Hv |]. split; [lia |].
  exact (conn_internal_abs_border (Pqubit.mk true None 3 0 0 0 0) 8 Hv
           ltac:(lia)).
Defined.
